(** * chess_bot.py: search core of the chess bot

    A shallow embedding of [src/chess_bot.py]: the transposition table, the
    static evaluator, the move orderer, quiescence, the negamax search and the
    iterative-deepening driver, followed by the properties of the
    specification that concern them.

    Conventions of the embedding.
    - Python integers are [Z].  The floats that the search uses are only
      [float('inf')], [float('-inf')] and their negations, mixed with
      integers: they are the type [Score] of integers extended by the two
      infinities.
    - Python list indexing is [py_getitem] / [py_setitem]: a negative index
      counts from the end and an index out of range raises [IndexError].
    - The python-chess library (board, legal moves, push/pop, FEN) is not part
      of the repository: it is the interface [RulesEngine].
    - [time.time()] reads a clock oracle [clock : nat -> Z]; the n-th call
      returns [clock n].
    - Stateful methods of [ChessBot] live in the monad [M]: a state
      transformer over the record [ChessBot] whose outcome is a value, a raised
      exception, or exhaustion of the recursion fuel. *)

From Stdlib Require Import ZArith Lia List Permutation Sorted Bool.
From stdpp Require Import base option list gmap strings.

Local Open Scope Z_scope.

(* ===================================================================== *)
(** ** Python values *)

(** [l[i]]: negative indices count from the end; [None] is [IndexError]. *)
Definition py_getitem {A : Type} (l : list A) (i : Z) : option A :=
  let n := Z.of_nat (length l) in
  if (0 <=? i) && (i <? n) then l !! Z.to_nat i
  else if (i <? 0) && (0 <=? n + i) then l !! Z.to_nat (n + i)
  else None.

(** [l[i] = x]: same index rules; [None] is [IndexError]. *)
Definition py_setitem {A : Type} (l : list A) (i : Z) (x : A) : option (list A) :=
  let n := Z.of_nat (length l) in
  if (0 <=? i) && (i <? n) then Some (<[Z.to_nat i := x]> l)
  else if (i <? 0) && (0 <=? n + i) then Some (<[Z.to_nat (n + i) := x]> l)
  else None.

(** [range(a, b)] *)
Definition py_range (a b : Z) : list Z :=
  map (fun k => a + Z.of_nat k) (seq 0 (Z.to_nat (b - a))).

(** [range(a, b, -1)] *)
Definition py_range_down (a b : Z) : list Z :=
  map (fun k => a - Z.of_nat k) (seq 0 (Z.to_nat (a - b))).

(** Scores: Python integers together with [float('inf')] and [float('-inf')]. *)
Inductive Score : Type :=
  | NegInf
  | Fin (z : Z)
  | PosInf.

#[global] Instance Score_eq_dec : EqDecision Score.
Proof. solve_decision. Defined.

(** unary minus *)
Definition score_neg (x : Score) : Score :=
  match x with
  | NegInf => PosInf
  | Fin z => Fin (- z)
  | PosInf => NegInf
  end.

(** [x <= y] *)
Definition score_le (x y : Score) : bool :=
  match x, y with
  | NegInf, _ => true
  | _, PosInf => true
  | Fin a, Fin b => a <=? b
  | _, _ => false
  end.

(** [x >= y], [x < y], [x > y] *)
Definition score_ge (x y : Score) : bool := score_le y x.
Definition score_lt (x y : Score) : bool := negb (score_le y x).
Definition score_gt (x y : Score) : bool := negb (score_le x y).

(* ===================================================================== *)
(** ** Chess values (python-chess data that the bot reads) *)

(** [chess.PAWN .. chess.KING] are the integers 1 .. 6. *)
Inductive PieceType : Type := PAWN | KNIGHT | BISHOP | ROOK | QUEEN | KING.

#[global] Instance PieceType_eq_dec : EqDecision PieceType.
Proof. solve_decision. Defined.

(** [chess.Piece]; [color] is [True] for white. *)
Record Piece : Type := mkPiece { piece_type : PieceType; color : bool }.

#[global] Instance Piece_eq_dec : EqDecision Piece.
Proof. solve_decision. Defined.

(** [chess.Move]; squares are the integers 0 .. 63, a1 = 0, h8 = 63. *)
Record Move : Type := mkMove {
  from_square : Z;
  to_square : Z;
  promotion : option PieceType
}.

#[global] Instance Move_eq_dec : EqDecision Move.
Proof. solve_decision. Defined.

(* ===================================================================== *)
(** ** class TranspositionTable *)

Inductive Flag : Type := EXACT | LOWER | UPPER.

#[global] Instance Flag_eq_dec : EqDecision Flag.
Proof. solve_decision. Defined.

Module TranspositionTable.

(** An entry is the tuple [(depth, eval, flag, best_move)]. *)
Record Entry : Type := mkEntry {
  e_depth : Z;
  e_eval : Score;
  e_flag : Flag;
  e_best_move : option Move
}.

(** [self.table] is a dict keyed by the FEN string, [self.size] the
    capacity. *)
Record t : Type := mk {
  table : gmap string Entry;
  capacity : Z
}.

(** [__init__(size)] *)
Definition init (size : Z) : t := {| table := ∅; capacity := size |}.

(** [store(key, depth, eval_score, flag, best_move)] *)
Definition store (self : t) (key : string) (depth : Z) (eval_score : Score)
    (flag : Flag) (best_move : option Move) : t :=
  let tbl :=
    if Z.of_nat (size (table self)) >? capacity self then ∅ else table self in
  {| table := <[key := mkEntry depth eval_score flag best_move]> tbl;
     capacity := capacity self |}.

(** [lookup(key, depth, alpha, beta)] *)
Definition lookup (self : t) (key : string) (depth : Z) (alpha beta : Score)
    : option (option Move * Score * Flag) :=
  match table self !! key with
  | Some (mkEntry stored_depth eval_score flag best_move) =>
      if stored_depth >=? depth then
        if bool_decide (flag = EXACT) then Some (best_move, eval_score, flag)
        else if bool_decide (flag = LOWER) && score_ge eval_score beta
        then Some (best_move, eval_score, flag)
        else if bool_decide (flag = UPPER) && score_le eval_score alpha
        then Some (best_move, eval_score, flag)
        else None
      else None
  | None => None
  end.

(** [clear()] *)
Definition clear (self : t) : t := {| table := ∅; capacity := capacity self |}.

End TranspositionTable.

(* ===================================================================== *)
(** ** ChessBot.evaluate and its helpers

    The evaluator reads the board only through [piece_at] and [piece_map];
    here the board is the function [pa] that [piece_at] computes on the
    squares 0 .. 63. *)

Definition Placement : Type := Z -> option Piece.

(** [piece and piece.piece_type == 1 and piece.color == c] *)
Definition pawn_of_color (p : option Piece) (c : bool) : bool :=
  match p with
  | Some q => bool_decide (piece_type q = PAWN) && eqb (color q) c
  | None => false
  end.

(** [board.piece_map().items()]: python-chess scans the occupied squares from
    h8 down to a1. *)
Definition piece_map (pa : Placement) : list (Z * Piece) :=
  omap (fun sq => match pa sq with Some p => Some (sq, p) | None => None end)
       (py_range_down 63 (-1)).

Definition passed_pawn_bonuses : list Z := [0; 120; 80; 50; 30; 15; 15; 120].
Definition isolated_pawn_penalty : list Z := [0; -10; -25; -50; -75; -75; -75; -75; -75].
Definition king_pawn_shield_scores : list Z := [4; 7; 4; 3; 6; 3].

(** [_is_passed_pawn(square, is_white)]: the nested loops return [False] at
    the first opposing pawn found. *)
Definition _is_passed_pawn (pa : Placement) (square : Z) (is_white : bool) : bool :=
  let file_index := square mod 8 in
  let rank_index := square / 8 in
  let found (ranks : list Z) (opp : bool) :=
    existsb (fun rank =>
      existsb (fun file =>
        (0 <=? file) && (file <? 8) && pawn_of_color (pa (rank * 8 + file)) opp)
        [file_index - 1; file_index; file_index + 1]) ranks in
  if is_white then negb (found (py_range (rank_index + 1) 8) false)
  else negb (found (py_range_down (rank_index - 1) (-1)) true).

(** [_is_isolated_pawn(square, is_white)] *)
Definition _is_isolated_pawn (pa : Placement) (square : Z) (is_white : bool) : bool :=
  let file_index := square mod 8 in
  negb (existsb (fun file =>
    (0 <=? file) && (file <? 8) &&
    existsb (fun rank => pawn_of_color (pa (rank * 8 + file)) is_white) (py_range 0 8))
    [file_index - 1; file_index + 1]).

(** [_calculate_king_shield(square, is_white)].  The index [min(5, file)] is
    within the six-entry table for every [file] of the loop, so the lookup
    cannot raise. *)
Definition _calculate_king_shield (pa : Placement) (square : Z) (is_white : bool) : Z :=
  let file_index := square mod 8 in
  let rank_index := square / 8 in
  let files := py_range (Z.max 0 (file_index - 1)) (Z.min 8 (file_index + 2)) in
  let ranks :=
    if is_white then py_range rank_index (Z.min 8 (rank_index + 2))
    else py_range (Z.max 0 (rank_index - 1)) (rank_index + 1) in
  fold_left (fun shield_bonus file =>
    fold_left (fun shield_bonus rank =>
      if pawn_of_color (pa (rank * 8 + file)) is_white
      then shield_bonus + default 0 (py_getitem king_pawn_shield_scores (Z.min 5 file))
      else shield_bonus) ranks shield_bonus) files 0.

(** The value that one iteration of the loop of [evaluate] computes for the
    piece on [square], and whether the piece counts as an isolated pawn. *)
Definition piece_value (pa : Placement) (square : Z) (piece : Piece) : Z * bool :=
  let rank_index := square / 8 in
  match piece_type piece with
  | PAWN =>
      let bonus :=
        if _is_passed_pawn pa square (color piece) then
          default 0 (py_getitem passed_pawn_bonuses
                       (if color piece then rank_index else 7 - rank_index))
        else 0 in
      (1 + bonus, _is_isolated_pawn pa square (color piece))
  | KNIGHT => (3, false)
  | BISHOP => (3, false)
  | ROOK => (5, false)
  | QUEEN => (10, false)
  | KING => (0 + _calculate_king_shield pa square (color piece), false)
  end.

(** Loop state of [evaluate]:
    [(eval_score, white_isolated_pawns, black_isolated_pawns)]. *)
Definition evaluate_step (pa : Placement) (acc : Z * Z * Z) (item : Z * Piece)
    : Z * Z * Z :=
  let '(eval_score, white_isolated_pawns, black_isolated_pawns) := acc in
  let '(square, piece) := item in
  let '(value, isolated) := piece_value pa square piece in
  if color piece then
    (eval_score + value,
     if isolated then white_isolated_pawns + 1 else white_isolated_pawns,
     black_isolated_pawns)
  else
    (eval_score - value,
     white_isolated_pawns,
     if isolated then black_isolated_pawns + 1 else black_isolated_pawns).

(** [evaluate()]; [None] is the [IndexError] of the penalty table, raised when
    one side has more than eight isolated pawns. *)
Definition evaluate (pa : Placement) : option Z :=
  let '(eval_score, white_isolated_pawns, black_isolated_pawns) :=
    fold_left (evaluate_step pa) (piece_map pa) (0, 0, 0) in
  match py_getitem isolated_pawn_penalty white_isolated_pawns with
  | None => None
  | Some pw =>
      match py_getitem isolated_pawn_penalty black_isolated_pawns with
      | None => None
      | Some pb => Some (eval_score + pw - pb)
      end
  end.

(** [board.mirror()] of python-chess on the piece placement: the board is
    flipped vertically ([square ^ 0x38]) and the colours are swapped. *)
Definition swap_color (p : Piece) : Piece :=
  {| piece_type := piece_type p; color := negb (color p) |}.

Definition flip_vertical (square : Z) : Z := Z.lxor square 56.

Definition mirror (pa : Placement) : Placement :=
  fun square => swap_color <$> pa (flip_vertical square).

(* ===================================================================== *)
(** ** The rules engine (python-chess) as an interface

    [chess.Board] keeps the current position and the stack of the positions
    that [push] saved; [pop] restores the last one and raises [IndexError] on
    an empty stack.  Legal moves, captures, the FEN and the side to move are
    functions of the current position; [is_game_over] also looks at the
    history (repetition). *)

Class RulesEngine : Type := {
  Position : Type;
  piece_at : Position -> Placement;
  legal_moves : Position -> list Move;
  make_move : Position -> Move -> Position;
  is_capture : Position -> Move -> bool;
  game_over : Position -> list Position -> bool;
  fen : Position -> string;
  turn : Position -> bool
}.

Record Board `{RulesEngine} : Type := mkBoard {
  position : Position;
  move_stack : list Position
}.

(** [board.push(move)] *)
Definition push `{RulesEngine} (b : Board) (move : Move) : Board :=
  {| position := make_move (position b) move;
     move_stack := position b :: move_stack b |}.

(** [board.pop()] *)
Definition pop `{RulesEngine} (b : Board) : option Board :=
  match move_stack b with
  | p :: st => Some {| position := p; move_stack := st |}
  | [] => None
  end.

(** [board.is_game_over()] *)
Definition is_game_over `{RulesEngine} (b : Board) : bool :=
  game_over (position b) (move_stack b).

(* ===================================================================== *)
(** ** Python's stable sort

    [sorted(l, key=k)] and [l.sort(key=k, reverse=True)] on a list already
    paired with its keys.  Both are stable: elements with equal keys keep
    their original order, also with [reverse=True]. *)

(** [x], which preceded every element of [l] in the input, is placed before
    the first element that may follow it. *)
Fixpoint sort_insert {A : Type} (reverse : bool) (x : Z * A) (l : list (Z * A))
    : list (Z * A) :=
  match l with
  | [] => [x]
  | y :: l' =>
      if (if reverse then x.1 >=? y.1 else x.1 <=? y.1) then x :: y :: l'
      else y :: sort_insert reverse x l'
  end.

Definition py_sort {A : Type} (reverse : bool) (l : list (Z * A)) : list (Z * A) :=
  foldr (sort_insert reverse) [] l.

(* ===================================================================== *)
(** ** class ChessBot: state and read-only methods *)

(** [self.mvv_lva] *)
Definition mvv_lva : list (PieceType * Z) :=
  [(PAWN, 1); (KNIGHT, 3); (BISHOP, 3); (ROOK, 5); (QUEEN, 9); (KING, 1000)].

(** [self.mvv_lva.get(pt, 0)] *)
Definition mvv_lva_get (pt : PieceType) : Z :=
  match find (fun kv => bool_decide (kv.1 = pt)) mvv_lva with
  | Some kv => kv.2
  | None => 0
  end.

Section Bot.
Context `{RulesEngine}.

(** [time.time()]: the n-th reading of the clock, in ticks. *)
Variable clock : nat -> Z.

(** The fields of [ChessBot] that the search reads or writes, and the number
    of clock readings made so far. *)
Record ChessBot : Type := mkBot {
  board : Board;
  history_table : list (list Z);
  killer_moves : list (option Move);
  transposition_table : TranspositionTable.t;
  clock_reads : nat
}.

(** [generate_transposition_key()] *)
Definition generate_transposition_key (self : ChessBot) : string :=
  fen (position (board self)).

(** [_score_move_mvv_lva(move)]; [None] is an [IndexError] of the history
    table. *)
Definition _score_move_mvv_lva (self : ChessBot) (move : Move) : option Z :=
  let pos := position (board self) in
  let score := 0 in
  let score :=
    if is_capture pos move then
      match piece_at pos (to_square move), piece_at pos (from_square move) with
      | Some victim, Some attacker =>
          score + (1000 * mvv_lva_get (piece_type victim)
                   - mvv_lva_get (piece_type attacker))
      | _, _ => score + 1000
      end
    else score in
  let score := if bool_decide (promotion move ≠ None) then score + 800 else score in
  row ← py_getitem (history_table self) (from_square move / 8);
  count ← py_getitem row (from_square move mod 8);
  Some (score + count).

(** The score that the loop of [order_moves] gives to one move. *)
Definition order_score (self : ChessBot) (tt_best : option Move) (depth : Z)
    (move : Move) : option Z :=
  let score := 0 in
  let score :=
    if bool_decide (tt_best ≠ None) && bool_decide (Some move = tt_best)
    then score + 1000000 else score in
  s ← _score_move_mvv_lva self move;
  let score := score + s in
  if depth <? Z.of_nat (length (killer_moves self)) then
    killer ← py_getitem (killer_moves self) depth;
    Some (if bool_decide (killer = Some move) then score + 500 else score)
  else Some score.

(** [order_moves(moves, depth)] *)
Definition order_moves (self : ChessBot) (moves : list Move) (depth : Z)
    : option (list Move) :=
  let tt_key := generate_transposition_key self in
  let tt_entry := TranspositionTable.table (transposition_table self) !! tt_key in
  let tt_best :=
    match tt_entry with
    | Some e => TranspositionTable.e_best_move e
    | None => None
    end in
  scored ← mapM (fun move => score ← order_score self tt_best depth move;
                             Some (score, move)) moves;
  Some (map snd (py_sort true scored)).

(** The list that the [for] loop of [quiescence] runs over:
    [sorted(self.board.legal_moves, key=lambda m: -self._score_move_mvv_lva(m))] *)
Definition quiescence_moves (self : ChessBot) : option (list Move) :=
  keyed ← mapM (fun m => s ← _score_move_mvv_lva self m; Some (- s, m))
               (legal_moves (position (board self)));
  Some (map snd (py_sort false keyed)).

(* ===================================================================== *)
(** ** The monad of the stateful methods *)

Inductive Outcome (A : Type) : Type :=
  | Done (a : A) (s : ChessBot)   (* returned [a], the bot is now [s] *)
  | Raised                        (* a Python exception escaped *)
  | OutOfFuel.                    (* the recursion bound of the model was hit *)
Arguments Done {A} a s.
Arguments Raised {A}.
Arguments OutOfFuel {A}.

Definition M (A : Type) : Type := ChessBot -> Outcome A.

Definition ret {A : Type} (a : A) : M A := fun s => Done a s.

Definition bind {A B : Type} (m : M A) (f : A -> M B) : M B :=
  fun s =>
    match m s with
    | Done a s' => f a s'
    | Raised => Raised
    | OutOfFuel => OutOfFuel
    end.

Definition raise {A : Type} : M A := fun _ => Raised.
Definition out_of_fuel {A : Type} : M A := fun _ => OutOfFuel.
Definition get : M ChessBot := fun s => Done s s.
Definition put (s : ChessBot) : M unit := fun _ => Done tt s.

(** A read-only method that may raise. *)
Definition lift {A : Type} (f : ChessBot -> option A) : M A :=
  fun s => match f s with Some a => Done a s | None => Raised end.

#[global] Instance M_ret : MRet M := @ret.
#[global] Instance M_bind : MBind M := fun A B f m => bind m f.

Definition set_board (b : Board) (s : ChessBot) : ChessBot :=
  {| board := b; history_table := history_table s; killer_moves := killer_moves s;
     transposition_table := transposition_table s; clock_reads := clock_reads s |}.

Definition set_history_table (h : list (list Z)) (s : ChessBot) : ChessBot :=
  {| board := board s; history_table := h; killer_moves := killer_moves s;
     transposition_table := transposition_table s; clock_reads := clock_reads s |}.

Definition set_killer_moves (k : list (option Move)) (s : ChessBot) : ChessBot :=
  {| board := board s; history_table := history_table s; killer_moves := k;
     transposition_table := transposition_table s; clock_reads := clock_reads s |}.

Definition set_transposition_table (tt : TranspositionTable.t) (s : ChessBot)
    : ChessBot :=
  {| board := board s; history_table := history_table s;
     killer_moves := killer_moves s;
     transposition_table := tt; clock_reads := clock_reads s |}.

(** [time.time()] *)
Definition time_time : M Z :=
  fun s =>
    Done (clock (clock_reads s))
         {| board := board s; history_table := history_table s;
            killer_moves := killer_moves s;
            transposition_table := transposition_table s;
            clock_reads := S (clock_reads s) |}.

(** [self.board.push(move)] and [self.board.pop()] *)
Definition board_push (move : Move) : M unit :=
  fun s => Done tt (set_board (push (board s) move) s).

Definition board_pop : M unit :=
  fun s =>
    match pop (board s) with
    | Some b => Done tt (set_board b s)
    | None => Raised
    end.

(** [self.evaluate()] *)
Definition evaluate_board : M Z :=
  lift (fun s => evaluate (piece_at (position (board s)))).

(** [self.transposition_table.store(...)] *)
Definition tt_store (key : string) (depth : Z) (eval_score : Score) (flag : Flag)
    (best_move : option Move) : M unit :=
  fun s =>
    Done tt (set_transposition_table
               (TranspositionTable.store (transposition_table s) key depth
                  eval_score flag best_move) s).

(** The deadline test
    [start_time is not None and time_limit is not None
     and time.time() - start_time >= time_limit];
    the clock is read only when both are set. *)
Definition deadline_passed (start_time time_limit : option Z) : M bool :=
  match start_time, time_limit with
  | Some st, Some tl => (now ← time_time; ret (now - st >=? tl))
  | _, _ => ret false
  end.

(* ===================================================================== *)
(** ** ChessBot.quiescence *)

(** The [for] loop of [quiescence]; [child] is the recursive call. *)
Fixpoint quiescence_loop (child : Score -> Score -> M Score)
    (moves : list Move) (alpha beta : Score) : M Score :=
  match moves with
  | [] => ret alpha
  | move :: rest =>
      self ← get;
      if negb (is_capture (position (board self)) move)
         && negb (bool_decide (promotion move ≠ None))
      then quiescence_loop child rest alpha beta
      else
        board_push move;;
        r ← child (score_neg beta) (score_neg alpha);
        let score := score_neg r in
        board_pop;;
        if score_ge score beta then ret beta
        else quiescence_loop child rest
               (if score_gt score alpha then score else alpha) beta
  end.

(** [quiescence(alpha, beta)]; Python's recursion is unbounded, [fuel] bounds
    its depth in the model. *)
Fixpoint quiescence (fuel : nat) (alpha beta : Score) : M Score :=
  match fuel with
  | O => out_of_fuel
  | S fuel' =>
      stand_pat ← evaluate_board;
      if score_ge (Fin stand_pat) beta then ret beta
      else
        let alpha := if score_lt alpha (Fin stand_pat) then Fin stand_pat else alpha in
        moves ← lift quiescence_moves;
        quiescence_loop (quiescence fuel') moves alpha beta
  end.

(* ===================================================================== *)
(** ** ChessBot.search *)

(** How the [for] loop of [search] is left: by the [return] of the beta
    cutoff, or by falling out of it (moves exhausted, or [break]) with the
    best move and score so far. *)
Inductive LoopExit : Type :=
  | Returned (result : option Move * option Score)
  | Fell (best_move : option Move) (best_eval : Score).

(** [if depth < len(self.killer_moves): self.killer_moves[depth] = move] *)
Definition record_killer (depth : Z) (move : Move) : M unit :=
  fun s =>
    if depth <? Z.of_nat (length (killer_moves s)) then
      match py_setitem (killer_moves s) depth (Some move) with
      | Some k => Done tt (set_killer_moves k s)
      | None => Raised
      end
    else Done tt s.

(** [self.history_table[move.from_square // 8][move.from_square % 8] += 1];
    the row is a list of its own, updated in place. *)
Definition bump_history (move : Move) : M unit :=
  fun s =>
    let h := history_table s in
    match
      row ← py_getitem h (from_square move / 8);
      count ← py_getitem row (from_square move mod 8);
      row' ← py_setitem row (from_square move mod 8) (count + 1);
      py_setitem h (from_square move / 8) row'
    with
    | Some h' => Done tt (set_history_table h' s)
    | None => Raised
    end.

(** The [for] loop of [search]; [child] is the recursive call
    [self.search(depth - 1, _, _, not is_maximizing, start_time, time_limit)].
    The second component of the pair that [search] returns is an optional
    score, as the loop tests it with [is None]. *)
Fixpoint search_loop (child : Score -> Score -> M (option Move * option Score))
    (transposition_key : string) (depth : Z) (start_time time_limit : option Z)
    (moves : list Move) (alpha beta : Score)
    (best_move : option Move) (best_eval : Score) : M LoopExit :=
  match moves with
  | [] => ret (Fell best_move best_eval)
  | move :: rest =>
      passed ← deadline_passed start_time time_limit;
      if (passed : bool) then ret (Fell best_move best_eval)          (* break *)
      else
        board_push move;;
        r ← child (score_neg beta) (score_neg alpha);
        match r.2 with
        | None => board_pop;; ret (Fell best_move best_eval)          (* break *)
        | Some e =>
            let eval_score := score_neg e in
            board_pop;;
            let improved := score_gt eval_score best_eval in
            let best_eval := if improved then eval_score else best_eval in
            let best_move := if improved then Some move else best_move in
            let alpha := if score_gt eval_score alpha then eval_score else alpha in
            if score_ge alpha beta then
              record_killer depth move;;
              tt_store transposition_key depth best_eval LOWER best_move;;
              bump_history move;;
              ret (Returned (best_move, Some best_eval))
            else
              search_loop child transposition_key depth start_time time_limit
                rest alpha beta best_move best_eval
        end
  end.

(** [search(depth, alpha, beta, is_maximizing, start_time, time_limit)];
    [fuel] bounds the depth of the recursion (of [search] and of the
    quiescence below it) in the model. *)
Fixpoint search (fuel : nat) (depth : Z) (alpha beta : Score)
    (is_maximizing : bool) (start_time time_limit : option Z)
    : M (option Move * option Score) :=
  match fuel with
  | O => out_of_fuel
  | S fuel' =>
      passed ← deadline_passed start_time time_limit;
      if (passed : bool) then ret (None, Some (Fin 0))
      else
        self ← get;
        let transposition_key := generate_transposition_key self in
        match TranspositionTable.lookup (transposition_table self)
                transposition_key depth alpha beta with
        | Some (tt_move, tt_eval, tt_flag) => ret (tt_move, Some tt_eval)
        | None =>
            if (depth =? 0) || is_game_over (board self) then
              eval_score ←
                (if depth =? 0 then quiescence fuel' alpha beta
                 else (z ← evaluate_board; ret (Fin z)));
              tt_store transposition_key depth eval_score EXACT None;;
              ret (None, Some eval_score)
            else
              let moves := legal_moves (position (board self)) in
              moves ← lift (fun s => order_moves s moves depth);
              exit ← search_loop
                (fun a b => search fuel' (depth - 1) a b (negb is_maximizing)
                              start_time time_limit)
                transposition_key depth start_time time_limit
                moves alpha beta None NegInf;
              match exit with
              | Returned result => ret result
              | Fell best_move best_eval =>
                  stored ←
                    (if bool_decide (best_eval ≠ NegInf) then ret best_eval
                     else (z ← evaluate_board; ret (Fin z)));
                  tt_store transposition_key depth stored EXACT best_move;;
                  ret (best_move, Some best_eval)
              end
        end
  end.

(* ===================================================================== *)
(** ** ChessBot.iterative_deepening *)

(** The [while depth <= max_depth] loop; it runs at most [max_depth] times,
    [iterations] is the bound that makes it structural. *)
Fixpoint iterative_deepening_loop (fuel iterations : nat)
    (max_depth time_limit_seconds start_time depth : Z)
    (best_move : option Move) : M (option Move) :=
  match iterations with
  | O => out_of_fuel
  | S iterations' =>
      if depth <=? max_depth then
        now ← time_time;
        let elapsed_time := now - start_time in
        if elapsed_time >=? time_limit_seconds then ret best_move     (* break *)
        else
          self ← get;
          r ← search fuel depth NegInf PosInf (turn (position (board self)))
                (Some start_time) (Some time_limit_seconds);
          let best_move := match r.1 with Some move => Some move | None => best_move end in
          iterative_deepening_loop fuel iterations' max_depth time_limit_seconds
            start_time (depth + 1) best_move
      else ret best_move
  end.

(** [iterative_deepening(max_depth, time_limit_seconds)]; [fuel] is handed to
    every call of [search]. *)
Definition iterative_deepening (fuel : nat) (max_depth time_limit_seconds : Z)
    : M (option Move) :=
  start_time ← time_time;
  iterative_deepening_loop fuel (S (Z.to_nat max_depth)) max_depth
    time_limit_seconds start_time 1 None.

End Bot.

Arguments Done {_ A} a s.
Arguments Raised {_ A}.
Arguments OutOfFuel {_ A}.

(* ===================================================================== *)
(** ** A concrete rules engine for worked examples

    A pawn ending on which the methods above can be run.  Positions are piece
    lists with the side to move; a move relocates the piece on its origin
    square (replacing what stands on the destination, promoting if asked).
    The legal moves are tabulated for the four positions that the examples
    visit:

    - [root], White to move: Ka1, pawn g5 against Kc2, pawns g6 and h6;
      White has the capture g5xh6 and the king move Ka2;
    - [after_gxh6], Black to move: six king moves and g6-g5, no capture;
    - [after_Ka2], Black to move: five king moves, h6-h5 and the capture
      h6xg5;
    - [after_Ka2_hxg5], White to move: Ka1 and Ka3. *)

Module Scenario.

Record Pos : Type := mkPos {
  pieces : list (Z * Piece);
  white_to_move : bool
}.

#[global] Instance Pos_eq_dec : EqDecision Pos.
Proof. solve_decision. Defined.

Definition piece_on (p : Pos) : Placement :=
  fun sq => snd <$> find (fun e => e.1 =? sq) (pieces p).

Definition play (p : Pos) (m : Move) : Pos :=
  let rest :=
    filter (fun e => e.1 ≠ from_square m ∧ e.1 ≠ to_square m) (pieces p) in
  let moved :=
    match piece_on p (from_square m) with
    | Some pc =>
        [(to_square m,
          match promotion m with
          | Some pt => {| piece_type := pt; color := color pc |}
          | None => pc
          end)]
    | None => []
    end in
  {| pieces := moved ++ rest; white_to_move := negb (white_to_move p) |}.

Definition captures (p : Pos) (m : Move) : bool :=
  match piece_on p (to_square m) with Some _ => true | None => false end.

Definition mv (a b : Z) : Move :=
  {| from_square := a; to_square := b; promotion := None |}.

Definition white (pt : PieceType) : Piece := {| piece_type := pt; color := true |}.
Definition black (pt : PieceType) : Piece := {| piece_type := pt; color := false |}.

(** a1 = 0, c2 = 10, g5 = 38, g6 = 46, h6 = 47 *)
Definition root : Pos :=
  {| pieces := [(0, white KING); (38, white PAWN);
                (10, black KING); (46, black PAWN); (47, black PAWN)];
     white_to_move := true |}.

Definition gxh6 : Move := mv 38 47.
Definition Ka2 : Move := mv 0 8.
Definition hxg5 : Move := mv 47 38.

Definition after_gxh6 : Pos := play root gxh6.
Definition after_Ka2 : Pos := play root Ka2.
Definition after_Ka2_hxg5 : Pos := play after_Ka2 hxg5.

Definition moves_of (p : Pos) : list Move :=
  if bool_decide (p = root) then [Ka2; gxh6]
  else if bool_decide (p = after_gxh6) then
    [mv 10 17; mv 10 2; mv 10 18; mv 10 3; mv 10 11; mv 10 19; mv 46 38]
  else if bool_decide (p = after_Ka2) then
    [mv 10 2; mv 10 18; mv 10 3; mv 10 11; mv 10 19; mv 47 39; hxg5]
  else if bool_decide (p = after_Ka2_hxg5) then [mv 8 0; mv 8 16]
  else [].

Definition letter (pc : Piece) : string :=
  match piece_type pc, color pc with
  | PAWN, true => "P" | KNIGHT, true => "N" | BISHOP, true => "B"
  | ROOK, true => "R" | QUEEN, true => "Q" | KING, true => "K"
  | PAWN, false => "p" | KNIGHT, false => "n" | BISHOP, false => "b"
  | ROOK, false => "r" | QUEEN, false => "q" | KING, false => "k"
  end.

(** The position key: the 64 squares from a1 to h8 and the side to move. *)
Definition key_of (p : Pos) : string :=
  String.concat ""
    (map (fun sq => match piece_on p sq with Some pc => letter pc | None => "." end)
         (py_range 0 64))
  +:+ (if white_to_move p then " w" else " b").

#[global] Instance engine : RulesEngine := {|
  Position := Pos;
  piece_at := piece_on;
  legal_moves := moves_of;
  make_move := play;
  is_capture := captures;
  game_over := fun p _ => bool_decide (moves_of p = []);
  fen := key_of;
  turn := white_to_move
|}.

(** A fresh bot ([ChessBot.__init__]) standing on position [p]. *)
Definition bot_at (p : Pos) : ChessBot :=
  {| board := {| position := p; move_stack := [] |};
     history_table := replicate 8 (replicate 8 0);
     killer_moves := replicate 5 None;
     transposition_table := TranspositionTable.init 100000;
     clock_reads := 0 |}.

End Scenario.

(* ===================================================================== *)
(** ** Vocabulary of the specification *)

(** In the output of the sort, [x] may stand before [y]: keys ascend, or
    descend with [reverse=True]. *)
Definition in_order {A : Type} (reverse : bool) (x y : Z * A) : Prop :=
  if reverse then y.1 ≤ x.1 else x.1 ≤ y.1.

(** Sum of a list of integers. *)
Definition Zsum (l : list Z) : Z := foldr Z.add 0 l.

(** The squares that [_is_passed_pawn] inspects, in the order of its loops. *)
Definition passed_zone (square : Z) (is_white : bool) : list Z :=
  let file_index := square mod 8 in
  let rank_index := square / 8 in
  flat_map (fun rank =>
      map (fun file => rank * 8 + file)
          (filter (fun file => 0 ≤ file < 8)
                  [file_index - 1; file_index; file_index + 1]))
    (if is_white then py_range (rank_index + 1) 8
     else py_range_down (rank_index - 1) (-1)).

(** The squares that [_is_isolated_pawn] inspects. *)
Definition isolated_zone (square : Z) : list Z :=
  let file_index := square mod 8 in
  flat_map (fun file => map (fun rank => rank * 8 + file) (py_range 0 8))
    (filter (fun file => 0 ≤ file < 8) [file_index - 1; file_index + 1]).

(** The [(file, check_square)] pairs that [_calculate_king_shield] visits. *)
Definition shield_cells (square : Z) (is_white : bool) : list (Z * Z) :=
  let file_index := square mod 8 in
  let rank_index := square / 8 in
  flat_map (fun file =>
      map (fun rank => (file, rank * 8 + file))
          (if is_white then py_range rank_index (Z.min 8 (rank_index + 2))
           else py_range (Z.max 0 (rank_index - 1)) (rank_index + 1)))
    (py_range (Z.max 0 (file_index - 1)) (Z.min 8 (file_index + 2))).

(** Two duplicate-free lists with the same elements. *)
Definition same_cells {A : Type} (l1 l2 : list A) : Prop :=
  NoDup l1 ∧ NoDup l2 ∧ Forall (fun x => x ∈ l2) l1 ∧ Forall (fun x => x ∈ l1) l2.

#[global] Instance same_cells_dec {A : Type} `{EqDecision A} (l1 l2 : list A) :
  Decision (same_cells l1 l2).
Proof. unfold same_cells. apply _. Defined.

(** How the vertical flip acts on the zones of a square. *)
Definition flip_geometry (square : Z) : Prop :=
  0 ≤ flip_vertical square < 64
  ∧ flip_vertical (flip_vertical square) = square
  ∧ flip_vertical square / 8 = 7 - square / 8
  ∧ same_cells (map flip_vertical (isolated_zone (flip_vertical square)))
               (isolated_zone square)
  ∧ Forall (fun c : bool =>
      same_cells (map flip_vertical (passed_zone (flip_vertical square) (negb c)))
                 (passed_zone square c)
      ∧ same_cells (map (fun cell : Z * Z => (cell.1, flip_vertical cell.2))
                        (shield_cells (flip_vertical square) (negb c)))
                   (shield_cells square c))
      [true; false].

#[global] Instance flip_geometry_dec (square : Z) : Decision (flip_geometry square).
Proof. unfold flip_geometry. apply _. Defined.

(** What the piece on [square], if any, adds to the three accumulators of
    [evaluate]: the score, the white and the black isolated-pawn counts. *)
Definition contribution (pa : Placement) (square : Z) : Z * Z * Z :=
  match pa square with
  | None => (0, 0, 0)
  | Some piece =>
      let '(value, isolated) := piece_value pa square piece in
      if color piece then (value, if isolated then 1 else 0, 0)
      else (- value, 0, if isolated then 1 else 0)
  end.

Section SpecVocabulary.
Context `{RulesEngine}.

(** The move-ordering score in the words of the specification: the bonus for
    the best move recorded in the raw table entry of the current position,
    the capture score, the promotion bonus, the killer bonus at this ply and
    the history count of the origin square. *)
Definition spec_move_score (self : ChessBot) (depth : Z) (move : Move) : Z :=
  let pos := position (board self) in
  let recorded_best :=
    e ← TranspositionTable.table (transposition_table self) !! fen pos;
    TranspositionTable.e_best_move e in
  (if bool_decide (recorded_best = Some move) then 1000000 else 0)
  + (if is_capture pos move then
       match piece_at pos (to_square move), piece_at pos (from_square move) with
       | Some victim, Some attacker =>
           1000 * mvv_lva_get (piece_type victim) - mvv_lva_get (piece_type attacker)
       | _, _ => 1000
       end
     else 0)
  + (if bool_decide (promotion move ≠ None) then 800 else 0)
  + (if bool_decide (killer_moves self !! Z.to_nat depth = Some (Some move))
     then 500 else 0)
  + default 0 (row ← history_table self !! Z.to_nat (from_square move / 8);
               row !! Z.to_nat (from_square move mod 8)).

(** The history table is the 8 x 8 grid that [__init__] builds. *)
Definition history_wf (h : list (list Z)) : Prop :=
  length h = 8%nat ∧ Forall (fun row => length row = 8%nat) h.

(** Pieces and pawns on the board. *)
Definition piece_count (pa : Placement) : nat := length (piece_map pa).

Definition pawn_count (pa : Placement) : nat :=
  length (filter (fun e => piece_type e.2 = PAWN) (piece_map pa)).

(** A method leaves the board as it found it whenever it returns. *)
Definition preserves_board {A : Type} (m : M A) : Prop :=
  ∀ s r s', m s = Done r s' → board s' = board s.

(** The loop of [quiescence] in the words of the specification: every move of
    the list is applied, searched with the negated and swapped window, and
    undone; [beta] is returned on a cutoff and [alpha] is raised otherwise. *)
Fixpoint spec_quiescence_expand (child : Score → Score → M Score)
    (moves : list Move) (alpha beta : Score) : M Score :=
  match moves with
  | [] => ret alpha
  | move :: rest =>
      board_push move;;
      r ← child (score_neg beta) (score_neg alpha);
      board_pop;;
      if score_ge (score_neg r) beta then ret beta
      else spec_quiescence_expand child rest
             (if score_gt (score_neg r) alpha then score_neg r else alpha) beta
  end.

(** A move that [quiescence] expands: a capture or a promotion. *)
Definition tactical (pos : Position) (move : Move) : bool :=
  is_capture pos move || bool_decide (promotion move ≠ None).

End SpecVocabulary.

(* ===================================================================== *)
(** ** Vocabulary for the further properties *)

(** Pawns of one colour on the 64 squares, and those among them that
    [_is_isolated_pawn] calls isolated. *)
Definition pawns_of (pa : Placement) (c : bool) : nat :=
  length (filter (fun sq => pawn_of_color (pa sq) c = true) (py_range 0 64)).

Definition isolated_pawns (pa : Placement) (c : bool) : nat :=
  length (filter (fun sq => pawn_of_color (pa sq) c = true
                            ∧ _is_isolated_pawn pa sq c = true)
                 (py_range 0 64)).

(** The material values of [evaluate]; the king counts through its pawn
    shield only. *)
Definition material_value (pt : PieceType) : Z :=
  match pt with
  | PAWN => 1 | KNIGHT => 3 | BISHOP => 3 | ROOK => 5 | QUEEN => 10 | KING => 0
  end.

(** White material minus black material. *)
Definition material_balance (pa : Placement) : Z :=
  Zsum (map (fun sq =>
               match pa sq with
               | Some p => if color p then material_value (piece_type p)
                           else - material_value (piece_type p)
               | None => 0
               end)
            (py_range 0 64)).

(** [self.history_table[square // 8][square % 8]]; [None] is [IndexError]. *)
Definition history_count `{RulesEngine} (self : ChessBot) (square : Z) : option Z :=
  row ← py_getitem (history_table self) (square / 8);
  py_getitem row (square mod 8).

(** Every returning run of [m] relates the bot before to the bot after. *)
Definition respects `{RulesEngine} {A : Type} (R : ChessBot → ChessBot → Prop)
    (m : M A) : Prop :=
  ∀ s r s', m s = Done r s' → R s s'.

(** The search keeps the shape of the heuristic tables and the capacity of
    the transposition table. *)
Definition same_shape `{RulesEngine} (s s' : ChessBot) : Prop :=
  (history_wf (history_table s) → history_wf (history_table s'))
  ∧ length (killer_moves s') = length (killer_moves s)
  ∧ TranspositionTable.capacity (transposition_table s')
    = TranspositionTable.capacity (transposition_table s).

(** No history count of a square of the board has gone down. *)
Definition history_grows `{RulesEngine} (s s' : ChessBot) : Prop :=
  ∀ square count,
    history_count s square = Some count →
    ∃ count', history_count s' square = Some count' ∧ count ≤ count'.

(** The position that a Python index denotes in a list of length [n], if
    any. *)
Definition py_index (n : nat) (i : Z) : option nat :=
  if (0 <=? i) && (i <? Z.of_nat n) then Some (Z.to_nat i)
  else if (i <? 0) && (0 <=? Z.of_nat n + i) then Some (Z.to_nat (Z.of_nat n + i))
  else None.

Arguments py_index : simpl never.

(* ===================================================================== *)
(** ** ChessBot: the methods around the search

    [self.turn], the string ["white"] or ["black"] that these methods keep
    beside the board, is not read by the search; it is passed to them and
    returned by them explicitly. *)

(** [switch_player()] *)
Definition switch_player (turn : string) : string :=
  if bool_decide (turn = "black") then "white" else "black".

(** The truth value of a [chess.Move] in [if best_move:]: python-chess makes
    only the null move (a1 to a1, no promotion) false. *)
Definition move_truthy (move : Move) : bool :=
  negb (bool_decide (from_square move = 0 ∧ to_square move = 0
                     ∧ promotion move = None)).

Section BotMoves.
Context `{RulesEngine}.
Variable clock : nat → Z.

(** [make_move(move_uci)]; [from_uci] is python-chess's parser
    [chess.Move.from_uci], which raises on a malformed string. *)
Definition bot_make_move (from_uci : string → option Move) (move_uci : string)
    (turn : string) : M (bool * string) :=
  move ← lift (fun _ => from_uci move_uci);
  self ← get;
  if bool_decide (move ∈ legal_moves (position (board self))) then
    board_push move;;
    ret (true, switch_player turn)
  else ret (false, turn).

(** [make_bot_move(max_depth, time_limit_seconds)] *)
Definition make_bot_move (fuel : nat) (max_depth time_limit_seconds : Z)
    (turn : string) : M (option Move * string) :=
  best_move ← iterative_deepening clock fuel max_depth time_limit_seconds;
  match best_move with
  | Some move =>
      if move_truthy move then
        board_push move;;
        ret (Some move, switch_player turn)
      else ret (None, turn)
  | None => ret (None, turn)
  end.

End BotMoves.

(* ===================================================================== *)
(** ** More material for worked examples *)

Module MoreScenarios.
Import Scenario.

(** A position without pawns: Ke1, Qd1 against Ke8, Rd8, Nh5; the queen
    attacks the rook (d1xd8) and the knight (d1xh5). *)
Definition queen_position : Pos :=
  {| pieces := [(4, white KING); (3, white QUEEN);
                (60, black KING); (59, black ROOK); (39, black KNIGHT)];
     white_to_move := true |}.

Definition Qxd8 : Move := mv 3 59.
Definition Qxh5 : Move := mv 3 39.

(** The bot on [root] after a depth-1 search has been recorded in its
    table. *)
Definition bot_with_entry : ChessBot :=
  set_transposition_table
    (TranspositionTable.store (TranspositionTable.init 100000)
       (key_of root) 1 (Fin 65) EXACT (Some gxh6))
    (bot_at root).

(** A parser for the three strings of the examples. *)
Definition parse_uci (move_uci : string) : option Move :=
  if bool_decide (move_uci = "g5h6") then Some gxh6
  else if bool_decide (move_uci = "a1a2") then Some Ka2
  else if bool_decide (move_uci = "a1b1") then Some (mv 0 1)
  else None.

End MoreScenarios.

(* ===================================================================== *)
(** * Properties *)

(** ** Transposition table *)

Section TranspositionTableProperties.
Import TranspositionTable.

(** C4. [lookup] returns nothing when the key has no entry or the stored
    depth is strictly less than the requested depth; when the stored depth is
    at least the requested depth it returns the entry, as
    [(best_move, eval, flag)], exactly when the flag is EXACT, or LOWER with
    [eval >= beta], or UPPER with [eval <= alpha]. *)
Theorem lookup_spec (self : t) (key : string) (depth : Z) (alpha beta : Score) :
  (table self !! key = None → lookup self key depth alpha beta = None) ∧
  (∀ e, table self !! key = Some e →
     (e_depth e < depth → lookup self key depth alpha beta = None) ∧
     (depth ≤ e_depth e →
        let usable :=
          e_flag e = EXACT
          ∨ (e_flag e = LOWER ∧ score_ge (e_eval e) beta = true)
          ∨ (e_flag e = UPPER ∧ score_le (e_eval e) alpha = true) in
        (usable → lookup self key depth alpha beta
                  = Some (e_best_move e, e_eval e, e_flag e)) ∧
        (¬ usable → lookup self key depth alpha beta = None))).
Proof.
  unfold lookup. split.
  - intros ->. reflexivity.
  - intros [d ev fl bm] ->. cbn [e_depth e_eval e_flag e_best_move]. split.
    + intros Hlt. destruct (Z.geb_spec d depth) as [Hge | _]; [lia | reflexivity].
    + intros Hle. destruct (Z.geb_spec d depth) as [_ | Hlt]; [| lia].
      destruct fl; cbn; split.
      * reflexivity.
      * intros Hn. exfalso. apply Hn. by left.
      * intros [Heq | [[_ Hge] | [Heq _]]]; try discriminate. by rewrite Hge.
      * intros Hn. destruct (score_ge ev beta) eqn:Hge; [| reflexivity].
        exfalso. apply Hn. right. by left.
      * intros [Heq | [[Heq _] | [_ Hle']]]; try discriminate. by rewrite Hle'.
      * intros Hn. destruct (score_le ev alpha) eqn:Hle'; [| reflexivity].
        exfalso. apply Hn. right. by right.
Qed.

(** A LOWER entry of depth 3 with score 7 answers a depth-2 probe at the
    window (0, 5), and does not answer a depth-4 probe. *)
Lemma lookup_spec_witness :
  let e := mkEntry 3 (Fin 7) LOWER None in
  let self := mk {["k" := e]} 10 in
  lookup self "k" 2 (Fin 0) (Fin 5) = Some (None, Fin 7, LOWER)
  ∧ lookup self "k" 4 (Fin 0) (Fin 5) = None.
Proof.
  intros e self.
  destruct (lookup_spec self "k" 2 (Fin 0) (Fin 5)) as [_ Hsome].
  destruct (Hsome e (lookup_singleton_eq _ _)) as [_ Hdeep].
  destruct (lookup_spec self "k" 4 (Fin 0) (Fin 5)) as [_ Hsome4].
  destruct (Hsome4 e (lookup_singleton_eq _ _)) as [Hshallow _].
  split.
  - apply Hdeep; [cbn; lia |]. right. left. split; reflexivity.
  - apply Hshallow. cbn. lia.
Defined.

(** C7. [store] empties the whole table first when, immediately before the
    insert, the number of entries exceeds the capacity, and leaves the other
    entries alone otherwise; in both cases the key then holds the new entry,
    whatever it held before. *)
Theorem store_spec (self : t) (key : string) (depth : Z) (eval_score : Score)
    (flag : Flag) (best_move : option Move) :
  let e := mkEntry depth eval_score flag best_move in
  let self' := store self key depth eval_score flag best_move in
  (Z.of_nat (size (table self)) > capacity self → table self' = {[key := e]})
  ∧ (Z.of_nat (size (table self)) ≤ capacity self →
     table self' = <[key := e]> (table self))
  ∧ table self' !! key = Some e
  ∧ capacity self' = capacity self.
Proof.
  intros e self'. subst self'. unfold store. cbn [table capacity].
  repeat split.
  - intros Hgt. destruct (Z.gtb_spec (Z.of_nat (size (table self))) (capacity self));
      [| lia]. apply insert_empty.
  - intros Hle. destruct (Z.gtb_spec (Z.of_nat (size (table self))) (capacity self));
      [lia | reflexivity].
  - apply lookup_insert_eq.
Qed.

(** A table of capacity 0 holding one entry is emptied by the next [store];
    an empty table of capacity 0 is not. *)
Lemma store_spec_witness :
  let old := mkEntry 1 (Fin 1) EXACT None in
  let new := mkEntry 2 (Fin 2) UPPER None in
  table (store (mk {["a" := old]} 0) "b" 2 (Fin 2) UPPER None) = {["b" := new]}
  ∧ table (store (mk ∅ 0) "b" 2 (Fin 2) UPPER None) = <["b" := new]> ∅.
Proof.
  intros old new. split.
  - apply (store_spec (mk {["a" := old]} 0) "b" 2 (Fin 2) UPPER None).
    cbn [table capacity]. rewrite map_size_singleton. lia.
  - apply (store_spec (mk ∅ 0) "b" 2 (Fin 2) UPPER None).
    cbn [table capacity]. rewrite map_size_empty. lia.
Defined.

End TranspositionTableProperties.

(* ===================================================================== *)
(** ** Python values *)

Lemma py_getitem_nonneg {A : Type} (l : list A) (i : Z) :
  0 ≤ i → py_getitem l i = l !! Z.to_nat i.
Proof.
  intros Hi. unfold py_getitem.
  destruct (Z.leb_spec 0 i) as [_ | ?]; [| lia].
  destruct (Z.ltb_spec i (Z.of_nat (length l))) as [Hlt | Hge]; cbn.
  - reflexivity.
  - destruct (Z.ltb_spec i 0) as [? | _]; [lia |]. cbn.
    symmetry. apply lookup_ge_None. lia.
Qed.

(** ** The stable sort *)

Section StableSort.
Context {A : Type}.
Implicit Types (x y : Z * A) (l : list (Z * A)).

Lemma in_order_trans reverse x y z :
  in_order reverse x y → in_order reverse y z → in_order reverse x z.
Proof. unfold in_order. destruct reverse; lia. Qed.

Lemma sort_insert_perm reverse x l : sort_insert reverse x l ≡ₚ x :: l.
Proof.
  induction l as [| y l IH]; cbn; [done |].
  destruct (if reverse then _ else _); [done |].
  rewrite IH. apply Permutation_swap.
Qed.

Lemma py_sort_cons reverse x l :
  py_sort reverse (x :: l) = sort_insert reverse x (py_sort reverse l).
Proof. reflexivity. Qed.

Lemma py_sort_perm reverse l : py_sort reverse l ≡ₚ l.
Proof.
  induction l as [| x l IH]; [done |].
  rewrite py_sort_cons, sort_insert_perm. by rewrite IH.
Qed.

Lemma sort_insert_sorted reverse x l :
  StronglySorted (in_order reverse) l →
  StronglySorted (in_order reverse) (sort_insert reverse x l).
Proof.
  induction 1 as [| y l Hl IH Hy]; cbn.
  - repeat constructor.
  - destruct (if reverse then _ else _) eqn:Hcmp.
    + assert (Hxy : in_order reverse x y).
      { unfold in_order. destruct reverse; lia. }
      constructor; [by constructor |].
      constructor; [done |].
      eapply Forall_impl; [exact Hy |].
      intros z Hz. by eapply in_order_trans.
    + constructor; [done |].
      rewrite sort_insert_perm. constructor; [| done].
      unfold in_order. destruct reverse; lia.
Qed.

Lemma py_sort_sorted reverse l : StronglySorted (in_order reverse) (py_sort reverse l).
Proof.
  induction l as [| x l IH]; [constructor |].
  rewrite py_sort_cons. by apply sort_insert_sorted.
Qed.

(** Stability: the elements of any one key keep their input order. *)
Lemma sort_insert_stable reverse (k : Z) x l :
  filter (fun y => y.1 = k) (sort_insert reverse x l)
  = filter (fun y => y.1 = k) (x :: l).
Proof.
  induction l as [| y l IH]; cbn; [done |].
  destruct (if reverse then _ else _) eqn:Hcmp; [done |].
  assert (Hne : x.1 ≠ y.1) by (destruct reverse; lia).
  rewrite !filter_cons in *.
  destruct (decide (y.1 = k)), (decide (x.1 = k)); try congruence;
    rewrite IH; done.
Qed.

Lemma py_sort_stable reverse (k : Z) l :
  filter (fun y => y.1 = k) (py_sort reverse l) = filter (fun y => y.1 = k) l.
Proof.
  induction l as [| x l IH]; [done |].
  rewrite py_sort_cons, sort_insert_stable, !filter_cons. by rewrite IH.
Qed.

End StableSort.

(** Sorting a list by a key function: pair every element with its key, sort,
    drop the keys. *)
Section SortByKey.
Context {A : Type} (f : A → Z).

Abbreviation keyed := (fun a : A => (f a, a)).

Lemma sorted_keys reverse (l : list A) :
  Forall (fun p : Z * A => p.1 = f p.2) (py_sort reverse (map keyed l)).
Proof.
  rewrite py_sort_perm. apply Forall_forall. intros p Hp.
  apply list_elem_of_fmap in Hp as (a & -> & _). reflexivity.
Qed.

Lemma py_sort_by_key_perm reverse (l : list A) :
  map snd (py_sort reverse (map keyed l)) ≡ₚ l.
Proof.
  rewrite py_sort_perm, map_map. cbn. by rewrite map_id.
Qed.

Lemma py_sort_by_key_sorted reverse (l : list A) :
  StronglySorted (fun a b => in_order reverse (keyed a) (keyed b))
    (map snd (py_sort reverse (map keyed l))).
Proof.
  pose proof (py_sort_sorted reverse (map keyed l)) as Hs.
  pose proof (sorted_keys reverse l) as Hk.
  induction Hs as [| p t Ht IH Hp]; cbn; [constructor |].
  apply Forall_cons in Hk as [Hp1 Hk].
  constructor; [by apply IH |].
  apply Forall_forall. intros b Hb.
  apply list_elem_of_fmap in Hb as (q & -> & Hq).
  pose proof (proj1 (Forall_forall _ _) Hp q Hq) as Hpq.
  pose proof (proj1 (Forall_forall _ _) Hk q Hq) as Hq1.
  unfold in_order in Hpq. rewrite Hp1, Hq1 in Hpq. exact Hpq.
Qed.

Lemma filter_keyed (k : Z) (t : list (Z * A)) :
  Forall (fun p : Z * A => p.1 = f p.2) t →
  filter (fun a => f a = k) (map snd t) = map snd (filter (fun p : Z * A => p.1 = k) t).
Proof.
  induction 1 as [| p t Hp Ht IH]; [done |].
  cbn [map]. rewrite !filter_cons.
  destruct (decide (f p.2 = k)), (decide (p.1 = k)); try congruence;
    cbn [map]; by rewrite IH.
Qed.

Lemma py_sort_by_key_stable reverse (k : Z) (l : list A) :
  filter (fun a => f a = k) (map snd (py_sort reverse (map keyed l)))
  = filter (fun a => f a = k) l.
Proof.
  rewrite filter_keyed by apply sorted_keys.
  rewrite py_sort_stable.
  rewrite <- filter_keyed.
  - rewrite map_map. cbn. by rewrite map_id.
  - apply Forall_forall. intros p Hp.
    apply list_elem_of_fmap in Hp as (a & -> & _). reflexivity.
Qed.

End SortByKey.

Lemma mapM_total {A B : Type} (f : A → option B) (g : A → B) (l : list A) :
  Forall (fun a => f a = Some (g a)) l → mapM f l = Some (map g l).
Proof.
  intros Hl. apply mapM_Some. induction Hl; constructor; done.
Qed.

(* ===================================================================== *)
(** ** Move ordering *)

Section MoveOrdering.
Context `{RulesEngine}.

Lemma history_lookup (h : list (list Z)) (sq : Z) :
  history_wf h → 0 ≤ sq < 64 →
  ∃ row count,
    py_getitem h (sq / 8) = Some row
    ∧ py_getitem row (sq mod 8) = Some count
    ∧ default 0 (row ← h !! Z.to_nat (sq / 8); row !! Z.to_nat (sq mod 8)) = count.
Proof.
  intros [Hlen Hrows] Hsq.
  assert (0 ≤ sq / 8 < 8) as Hr
    by (split; [apply Z.div_pos | apply Z.div_lt_upper_bound]; lia).
  assert (0 ≤ sq mod 8 < 8) as Hc by (apply Z.mod_pos_bound; lia).
  destruct (lookup_lt_is_Some_2 h (Z.to_nat (sq / 8))) as [row Hrow]; [lia |].
  assert (length row = 8%nat) as Hrl.
  { eapply (proj1 (Forall_forall _ _) Hrows). eapply list_elem_of_lookup_2, Hrow. }
  destruct (lookup_lt_is_Some_2 row (Z.to_nat (sq mod 8))) as [c Hcv]; [lia |].
  exists row, c. rewrite !py_getitem_nonneg by lia.
  rewrite Hrow. cbn. rewrite Hcv. done.
Qed.

(** The score computed by the loop of [order_moves] is the score of the
    specification. *)
Lemma order_score_spec (self : ChessBot) (depth : Z) (move : Move) :
  history_wf (history_table self) → 0 ≤ from_square move < 64 → 0 ≤ depth →
  order_score self
    (match TranspositionTable.table (transposition_table self)
             !! generate_transposition_key self with
     | Some e => TranspositionTable.e_best_move e
     | None => None
     end) depth move
  = Some (spec_move_score self depth move).
Proof.
  intros Hh Hsq Hd.
  unfold order_score, _score_move_mvv_lva, spec_move_score,
    generate_transposition_key.
  destruct (history_lookup _ _ Hh Hsq) as (row & count & -> & Hcount & ->).
  set (best := match _ !! _ with Some e => TranspositionTable.e_best_move e | None => None end).
  assert (Hbest : (TranspositionTable.table (transposition_table self)
                     !! fen (position (board self))
                   ≫= (fun e => TranspositionTable.e_best_move e)) = best).
  { subst best. by destruct (_ !! _). }
  rewrite Hbest. clearbody best. clear Hbest.
  cbn. rewrite Hcount. cbn.
  assert (Htt : bool_decide (best ≠ None) && bool_decide (Some move = best)
                = bool_decide (best = Some move)).
  { repeat case_bool_decide; cbn; congruence. }
  rewrite Htt. clear Htt.
  destruct (Z.ltb_spec depth (Z.of_nat (length (killer_moves self)))) as [Hlt | Hge].
  - rewrite py_getitem_nonneg by lia.
    destruct (lookup_lt_is_Some_2 (killer_moves self) (Z.to_nat depth)) as [k Hk];
      [lia |].
    rewrite Hk. cbn. f_equal.
    assert (Hkk : bool_decide (k = Some move) = bool_decide (Some k = Some (Some move))).
    { apply bool_decide_ext. split; congruence. }
    rewrite Hkk. clear Hkk.
    destruct (bool_decide (Some k = Some (Some move))),
      (bool_decide (best = Some move)), (bool_decide (promotion move ≠ None)),
      (is_capture (position (board self)) move),
      (piece_at (position (board self)) (to_square move)),
      (piece_at (position (board self)) (from_square move)); lia.
  - rewrite (lookup_ge_None_2 (killer_moves self) (Z.to_nat depth)) by lia.
    f_equal.
    rewrite (bool_decide_eq_false_2 (None = Some (Some move))) by discriminate.
    destruct (bool_decide (best = Some move)), (bool_decide (promotion move ≠ None)),
      (is_capture (position (board self)) move),
      (piece_at (position (board self)) (to_square move)),
      (piece_at (position (board self)) (from_square move)); lia.
Qed.

(** C6. [order_moves] returns the moves sorted by descending score, the score
    of a move being 1,000,000 if it is the best move recorded in the raw table
    entry of the current position, plus 1000 times the victim's value minus
    the attacker's value for a capture (a flat 1000 when victim or attacker is
    not on the board), plus 800 for a promotion, plus 500 if it is the killer
    move recorded at this depth, plus the history count of its origin square;
    moves of equal score stay in their original order. *)
Theorem order_moves_spec (self : ChessBot) (moves : list Move) (depth : Z) :
  history_wf (history_table self) →
  Forall (fun m => 0 ≤ from_square m < 64) moves →
  0 ≤ depth →
  ∃ ordered,
    order_moves self moves depth = Some ordered
    ∧ ordered ≡ₚ moves
    ∧ StronglySorted
        (fun a b => spec_move_score self depth b ≤ spec_move_score self depth a)
        ordered
    ∧ ∀ k, filter (fun m => spec_move_score self depth m = k) ordered
           = filter (fun m => spec_move_score self depth m = k) moves.
Proof.
  intros Hh Hsq Hd. unfold order_moves.
  rewrite (mapM_total _ (fun m => (spec_move_score self depth m, m))).
  - cbn. eexists. split; [reflexivity |]. split; [| split].
    + apply py_sort_by_key_perm.
    + apply (py_sort_by_key_sorted (spec_move_score self depth) true).
    + intros k. apply py_sort_by_key_stable.
  - eapply Forall_impl; [exact Hsq |].
    intros m Hm. cbn beta. rewrite order_score_spec by done. reflexivity.
Qed.

End MoveOrdering.

(* ===================================================================== *)
(** ** Reasoning in the monad *)

Section MonadLemmas.
Context `{RulesEngine}.

Lemma mbind_M {A B : Type} (m : M A) (f : A → M B) (s : ChessBot) :
  (m ≫= f) s
  = match m s with
    | Done a s' => f a s'
    | Raised => Raised
    | OutOfFuel => OutOfFuel
    end.
Proof. reflexivity. Qed.

Lemma preserves_ret {A : Type} (a : A) : preserves_board (ret a).
Proof. intros s r s' Heq. by injection Heq as <- <-. Qed.

Lemma preserves_bind {A B : Type} (m : M A) (f : A → M B) :
  preserves_board m → (∀ a, preserves_board (f a)) → preserves_board (m ≫= f).
Proof.
  intros Hm Hf s r s' Heq. rewrite mbind_M in Heq.
  destruct (m s) as [a s1 | |] eqn:Em; try discriminate.
  rewrite (Hf a _ _ _ Heq). eauto.
Qed.

Lemma preserves_lift {A : Type} (f : ChessBot → option A) : preserves_board (lift f).
Proof.
  intros s r s' Heq. unfold lift in Heq.
  destruct (f s); [| discriminate]. by injection Heq as <- <-.
Qed.

Lemma preserves_get : preserves_board get.
Proof. intros s r s' Heq. by injection Heq as <- <-. Qed.

Lemma preserves_time_time clock : preserves_board (time_time clock).
Proof. intros s r s' Heq. by injection Heq as <- <-. Qed.

Lemma preserves_deadline_passed clock start_time time_limit :
  preserves_board (deadline_passed clock start_time time_limit).
Proof.
  unfold deadline_passed. destruct start_time, time_limit;
    try apply preserves_ret.
  apply preserves_bind; [apply preserves_time_time |].
  intros now. apply preserves_ret.
Qed.

Lemma preserves_tt_store key depth eval_score flag best_move :
  preserves_board (tt_store key depth eval_score flag best_move).
Proof. intros s r s' Heq. by injection Heq as <- <-. Qed.

Lemma preserves_record_killer depth move : preserves_board (record_killer depth move).
Proof.
  intros s r s' Heq. unfold record_killer in Heq.
  destruct (_ <? _).
  - destruct (py_setitem _ _ _); [| discriminate]. by injection Heq as <- <-.
  - by injection Heq as <- <-.
Qed.

Lemma preserves_bump_history move : preserves_board (bump_history move).
Proof.
  intros s r s' Heq. unfold bump_history in Heq.
  destruct (_ ≫= _); [| discriminate]. by injection Heq as <- <-.
Qed.

Lemma preserves_evaluate_board : preserves_board evaluate_board.
Proof. apply preserves_lift. Qed.

Lemma pop_push (b : Board) (move : Move) : pop (push b move) = Some b.
Proof. by destruct b. Qed.

(** [push], a call that restores the board, [pop]: the board is back, and the
    [pop] cannot fail. *)
Lemma push_call_pop {A : Type} (move : Move) (call : M A) (s : ChessBot) :
  preserves_board call →
  (board_push move;; r ← call; board_pop;; ret r) s
  = match call (set_board (push (board s) move) s) with
    | Done r s' => Done r (set_board (board s) s')
    | Raised => Raised
    | OutOfFuel => OutOfFuel
    end.
Proof.
  intros Hcall. rewrite mbind_M. cbn [board_push]. rewrite mbind_M.
  destruct (call _) as [r s1 | |] eqn:Ecall; try reflexivity.
  apply Hcall in Ecall. rewrite mbind_M. unfold board_pop.
  rewrite Ecall. cbn [set_board board]. rewrite pop_push. reflexivity.
Qed.

End MonadLemmas.

(* ===================================================================== *)
(** ** Quiescence *)

Section Quiescence.
Context `{RulesEngine}.

(** One iteration of the loop of [quiescence], for a recursive call that
    restores the board. *)
Lemma quiescence_loop_step (child : Score → Score → M Score) (move : Move)
    (rest : list Move) (alpha beta : Score) (s : ChessBot) :
  (∀ a b, preserves_board (child a b)) →
  quiescence_loop child (move :: rest) alpha beta s
  = if tactical (position (board s)) move then
      match child (score_neg beta) (score_neg alpha)
              (set_board (push (board s) move) s) with
      | Done r s1 =>
          let s2 := set_board (board s) s1 in
          if score_ge (score_neg r) beta then Done beta s2
          else quiescence_loop child rest
                 (if score_gt (score_neg r) alpha then score_neg r else alpha)
                 beta s2
      | Raised => Raised
      | OutOfFuel => OutOfFuel
      end
    else quiescence_loop child rest alpha beta s.
Proof.
  intros Hchild. cbn [quiescence_loop]. rewrite mbind_M. cbn [get].
  unfold tactical. rewrite <- negb_orb.
  destruct (is_capture _ _ || _); cbn [negb]; [| reflexivity].
  rewrite mbind_M. cbn [board_push]. rewrite mbind_M.
  destruct (child _ _ _) as [r s1 | |] eqn:Ec; try reflexivity.
  apply Hchild in Ec. cbn [set_board board] in Ec.
  rewrite mbind_M. unfold board_pop. rewrite Ec, pop_push.
  cbn zeta. by destruct (score_ge _ _).
Qed.

Lemma quiescence_loop_preserves (child : Score → Score → M Score)
    (moves : list Move) :
  (∀ a b, preserves_board (child a b)) →
  ∀ alpha beta, preserves_board (quiescence_loop child moves alpha beta).
Proof.
  intros Hchild. induction moves as [| move rest IH]; intros alpha beta s r s' Heq.
  - by injection Heq as <- <-.
  - rewrite quiescence_loop_step in Heq by done.
    destruct (tactical _ _); [| exact (IH _ _ _ _ _ Heq)].
    destruct (child _ _ _) as [r1 s1 | |]; try discriminate.
    cbn zeta in Heq. destruct (score_ge _ _).
    + by injection Heq as <- <-.
    + apply IH in Heq. by rewrite Heq.
Qed.

Lemma quiescence_preserves (fuel : nat) (alpha beta : Score) :
  preserves_board (quiescence fuel alpha beta).
Proof.
  revert alpha beta. induction fuel as [| fuel IH]; intros alpha beta.
  - intros s r s' Heq. discriminate.
  - cbn [quiescence]. apply preserves_bind; [apply preserves_evaluate_board |].
    intros stand_pat. destruct (score_ge _ _); [apply preserves_ret |].
    apply preserves_bind; [apply preserves_lift |].
    intros moves. by apply quiescence_loop_preserves.
Qed.

Lemma quiescence_moves_perm (s : ChessBot) (moves : list Move) :
  quiescence_moves s = Some moves → moves ≡ₚ legal_moves (position (board s)).
Proof.
  unfold quiescence_moves. intros Heq.
  destruct (mapM _ _) as [keyed |] eqn:Ekeyed; [| discriminate].
  injection Heq as <-. rewrite py_sort_perm.
  apply mapM_Some in Ekeyed.
  induction Ekeyed as [| m p l k Hp _ IH]; [done |].
  destruct (_score_move_mvv_lva s m); [| discriminate].
  injection Hp as <-. cbn. by rewrite IH.
Qed.

(** The loop expands exactly the captures and promotions of its list. *)
Lemma quiescence_loop_expands (child : Score → Score → M Score) (beta : Score)
    (moves : list Move) :
  (∀ a b, preserves_board (child a b)) →
  ∀ alpha s,
    quiescence_loop child moves alpha beta s
    = spec_quiescence_expand child
        (filter (fun m => tactical (position (board s)) m = true) moves)
        alpha beta s.
Proof.
  intros Hchild. induction moves as [| move rest IH]; intros alpha s; [done |].
  rewrite quiescence_loop_step by done. rewrite filter_cons.
  destruct (tactical (position (board s)) move) eqn:Etac.
  - rewrite decide_True by done. cbn [spec_quiescence_expand].
    rewrite mbind_M. cbn [board_push]. rewrite mbind_M.
    destruct (child _ _ _) as [r s1 | |] eqn:Ec; try reflexivity.
    apply Hchild in Ec. cbn [set_board board] in Ec.
    rewrite mbind_M. unfold board_pop. rewrite Ec, pop_push. cbn zeta.
    destruct (score_ge _ _); [reflexivity |].
    rewrite IH. reflexivity.
  - rewrite decide_False by congruence. apply IH.
Qed.

Lemma score_le_refl (a : Score) : score_le a a = true.
Proof. destruct a; cbn; try done. apply Z.leb_refl. Qed.

Lemma score_le_trans (a b c : Score) :
  score_le a b = true → score_le b c = true → score_le a c = true.
Proof.
  destruct a, b, c; cbn; try done. rewrite !Z.leb_le. lia.
Qed.

Lemma score_le_total (a b : Score) : score_le a b = false → score_le b a = true.
Proof.
  destruct a, b; cbn; try done. rewrite Z.leb_le, Z.leb_gt. lia.
Qed.

(** The loop returns [beta] or a value that is at least the [alpha] it was
    entered with. *)
Lemma quiescence_loop_lower_bound (child : Score → Score → M Score)
    (beta : Score) (moves : list Move) :
  (∀ a b, preserves_board (child a b)) →
  ∀ alpha s r s',
    quiescence_loop child moves alpha beta s = Done r s' →
    r = beta ∨ score_le alpha r = true.
Proof.
  intros Hchild. induction moves as [| move rest IH]; intros alpha s r s' Heq.
  - injection Heq as <- <-. right. apply score_le_refl.
  - rewrite quiescence_loop_step in Heq by done.
    destruct (tactical _ _); [| by eauto].
    destruct (child _ _ _) as [r1 s1 | |]; try discriminate.
    cbn zeta in Heq. destruct (score_ge _ _).
    + injection Heq as <- <-. by left.
    + apply IH in Heq as [-> | Hle]; [by left | right].
      unfold score_gt in Hle.
      destruct (score_le (score_neg r1) alpha) eqn:Ecmp; cbn in Hle; [done |].
      eapply score_le_trans; [| exact Hle]. by apply score_le_total.
Qed.

Lemma quiescence_unfold (fuel : nat) (alpha beta : Score) (s : ChessBot)
    (stand_pat : Z) :
  evaluate (piece_at (position (board s))) = Some stand_pat →
  quiescence (S fuel) alpha beta s
  = if score_ge (Fin stand_pat) beta then Done beta s
    else match quiescence_moves s with
         | Some moves =>
             quiescence_loop (quiescence fuel) moves
               (if score_lt alpha (Fin stand_pat) then Fin stand_pat else alpha)
               beta s
         | None => Raised
         end.
Proof.
  intros Heval. cbn [quiescence]. rewrite mbind_M.
  unfold evaluate_board, lift at 1. rewrite Heval.
  destruct (score_ge _ _); [reflexivity |].
  rewrite mbind_M. unfold lift. by destruct (quiescence_moves s).
Qed.

(** C5. With stand-pat evaluation [stand_pat]: if it meets or exceeds [beta],
    [quiescence] returns [beta] and touches nothing (no move is applied, the
    recursive call is not needed); otherwise it runs the expansion loop over
    exactly the captures and promotions among the ordered legal moves, and
    whatever it returns is not below the stand-pat evaluation (it is [beta],
    or at least the larger of [alpha] and the stand-pat value, which it
    returns as is when no move is a capture or promotion). *)
Theorem quiescence_spec (fuel : nat) (alpha beta : Score) (s : ChessBot)
    (stand_pat : Z) :
  evaluate (piece_at (position (board s))) = Some stand_pat →
  (score_ge (Fin stand_pat) beta = true →
     quiescence (S fuel) alpha beta s = Done beta s)
  ∧ (score_ge (Fin stand_pat) beta = false →
     let alpha' := if score_lt alpha (Fin stand_pat) then Fin stand_pat else alpha in
     let expanded (moves : list Move) :=
       filter (fun m => tactical (position (board s)) m = true) moves in
     quiescence (S fuel) alpha beta s
     = (moves ← lift quiescence_moves;
        spec_quiescence_expand (quiescence fuel) (expanded moves) alpha' beta) s
     ∧ ∀ r s',
         quiescence (S fuel) alpha beta s = Done r s' →
         score_le (Fin stand_pat) r = true
         ∧ (r = beta ∨ score_le alpha' r = true)
         ∧ (expanded (legal_moves (position (board s))) = [] →
            r = alpha' ∧ s' = s)).
Proof.
  intros Heval.
  assert (Hpre : ∀ a b, preserves_board (quiescence fuel a b))
    by (intros; apply quiescence_preserves).
  rewrite (quiescence_unfold _ _ _ _ _ Heval).
  split; [by intros -> |]. intros Hlt alpha' expanded. rewrite Hlt.
  rewrite mbind_M. unfold lift.
  destruct (quiescence_moves s) as [moves |] eqn:Emoves; [| done].
  split; [by apply quiescence_loop_expands |].
  intros r s' Heq.
  assert (Halpha : score_le (Fin stand_pat) alpha' = true).
  { subst alpha'. unfold score_lt.
    destruct (score_le (Fin stand_pat) alpha) eqn:E; cbn [negb]; [done |].
    apply score_le_refl. }
  assert (Hbeta : score_le (Fin stand_pat) beta = true)
    by (by apply score_le_total).
  pose proof (quiescence_loop_lower_bound _ _ _ Hpre _ _ _ _ Heq) as Hlow.
  split; [| split; [exact Hlow |]].
  - destruct Hlow as [-> | Hle]; [done |].
    eapply score_le_trans; [exact Halpha | exact Hle].
  - intros Hnone. rewrite quiescence_loop_expands in Heq by done.
    assert (Hnil : expanded moves = []).
    { apply Permutation_nil_r. rewrite <- Hnone. subst expanded. cbn beta.
      by rewrite (quiescence_moves_perm _ _ Emoves). }
    subst expanded. cbn beta in Hnil. rewrite Hnil in Heq.
    by injection Heq as <- <-.
Qed.

Lemma quiescence_loop_terminates (child : Score → Score → M Score)
    (beta : Score) (b : Board) (moves : list Move) :
  (∀ a c, preserves_board (child a c)) →
  (∀ m, m ∈ moves → tactical (position b) m = true →
        ∀ a c s1, board s1 = push b m → child a c s1 ≠ OutOfFuel) →
  ∀ alpha s, board s = b → quiescence_loop child moves alpha beta s ≠ OutOfFuel.
Proof.
  intros Hpre. induction moves as [| move rest IH]; intros Hchild alpha s Hb.
  - discriminate.
  - rewrite quiescence_loop_step by done. rewrite Hb.
    assert (Hrest : ∀ m, m ∈ rest → tactical (position b) m = true →
                      ∀ a c s1, board s1 = push b m → child a c s1 ≠ OutOfFuel).
    { intros m Hm. apply Hchild. by right. }
    destruct (tactical (position b) move) eqn:Etac; [| by apply IH].
    destruct (child _ _ _) as [r s1 | |] eqn:Ec; [| discriminate |].
    + cbn zeta. destruct (score_ge _ _); [discriminate |]. by apply IH.
    + exfalso. eapply (Hchild move); [by left | done | | exact Ec]. reflexivity.
Qed.

(** C10. In a game where every legal capture removes a piece without adding a
    pawn, and every legal promotion removes a pawn without adding a piece,
    [quiescence] terminates from every position and for every window: a
    recursion depth of one more than the number of pieces plus the number of
    pawns on the board always suffices. *)
Theorem quiescence_terminates :
  (∀ pos m, m ∈ legal_moves pos → is_capture pos m = true →
     (piece_count (piece_at (make_move pos m)) < piece_count (piece_at pos))%nat
     ∧ (pawn_count (piece_at (make_move pos m)) ≤ pawn_count (piece_at pos))%nat) →
  (∀ pos m, m ∈ legal_moves pos → promotion m ≠ None →
     (pawn_count (piece_at (make_move pos m)) < pawn_count (piece_at pos))%nat
     ∧ (piece_count (piece_at (make_move pos m)) ≤ piece_count (piece_at pos))%nat) →
  ∀ fuel alpha beta s,
    (piece_count (piece_at (position (board s)))
     + pawn_count (piece_at (position (board s))) < fuel)%nat →
    quiescence fuel alpha beta s ≠ OutOfFuel.
Proof.
  intros Hcapture Hpromotion.
  induction fuel as [| fuel IH]; intros alpha beta s Hfuel; [lia |].
  cbn [quiescence]. rewrite mbind_M. unfold evaluate_board, lift at 1.
  destruct (evaluate _); [| discriminate].
  destruct (score_ge _ _); [discriminate |].
  rewrite mbind_M. unfold lift.
  destruct (quiescence_moves s) as [moves |] eqn:Emoves; [| discriminate].
  apply (quiescence_loop_terminates _ _ (board s)); [| | reflexivity].
  - intros. apply quiescence_preserves.
  - intros m Hm Htac a c s1 Hs1. apply IH. rewrite Hs1. cbn [push position].
    rewrite (quiescence_moves_perm _ _ Emoves) in Hm.
    unfold tactical in Htac. apply orb_true_iff in Htac as [Hcap | Hpro].
    + destruct (Hcapture _ _ Hm Hcap). lia.
    + apply bool_decide_eq_true in Hpro. destruct (Hpromotion _ _ Hm Hpro). lia.
Qed.

(** [quiescence] changes nothing but the board, and only for the time of a
    recursive call: when it returns, the whole bot is as it was. *)
Lemma quiescence_loop_state (child : Score → Score → M Score) (beta : Score)
    (moves : list Move) :
  (∀ a c s r s', child a c s = Done r s' → s' = s) →
  ∀ alpha s r s', quiescence_loop child moves alpha beta s = Done r s' → s' = s.
Proof.
  intros Hchild.
  assert (Hpre : ∀ a c, preserves_board (child a c)).
  { intros a c s r s' Heq. by rewrite (Hchild _ _ _ _ _ Heq). }
  induction moves as [| move rest IH]; intros alpha s r s' Heq.
  - by injection Heq as <- <-.
  - rewrite quiescence_loop_step in Heq by done.
    destruct (tactical _ _); [| by eauto].
    destruct (child _ _ _) as [r1 s1 | |] eqn:Ec; try discriminate.
    apply Hchild in Ec. subst s1. cbn zeta in Heq.
    assert (Hs : set_board (board s) (set_board (push (board s) move) s) = s)
      by (by destruct s).
    rewrite Hs in Heq. destruct (score_ge _ _); [by injection Heq as <- <- |].
    by eauto.
Qed.

Lemma quiescence_state (fuel : nat) :
  ∀ alpha beta s r s', quiescence fuel alpha beta s = Done r s' → s' = s.
Proof.
  induction fuel as [| fuel IH]; intros alpha beta s r s'; [discriminate |].
  cbn [quiescence]. rewrite mbind_M. unfold evaluate_board, lift at 1.
  destruct (evaluate _); [| discriminate].
  destruct (score_ge _ _); [by intros [= <- <-] |].
  rewrite mbind_M. unfold lift.
  destruct (quiescence_moves s); [| discriminate].
  by apply quiescence_loop_state.
Qed.

Lemma quiescence_loop_returns (child : Score → Score → M Score) (beta : Score)
    (s : ChessBot) (moves : list Move) :
  (∀ a c s r s', child a c s = Done r s' → s' = s) →
  (∀ m, m ∈ moves → tactical (position (board s)) m = true →
        ∀ a c, ∃ r, child a c (set_board (push (board s) m) s)
                    = Done r (set_board (push (board s) m) s)) →
  ∀ alpha, ∃ r, quiescence_loop child moves alpha beta s = Done r s.
Proof.
  intros Hchild.
  assert (Hpre : ∀ a c, preserves_board (child a c)).
  { intros a c s0 r s' Heq. by rewrite (Hchild _ _ _ _ _ Heq). }
  assert (Hs : ∀ move, set_board (board s) (set_board (push (board s) move) s) = s)
    by (intros; by destruct s).
  induction moves as [| move rest IH]; intros Hret alpha.
  - by exists alpha.
  - rewrite quiescence_loop_step by done.
    assert (Hrest : ∀ m, m ∈ rest → tactical (position (board s)) m = true →
              ∀ a c, ∃ r, child a c (set_board (push (board s) m) s)
                          = Done r (set_board (push (board s) m) s)).
    { intros m Hm. apply Hret. by right. }
    destruct (tactical (position (board s)) move) eqn:Etac; [| by apply IH].
    destruct (Hret move (list_elem_of_here _ _) Etac (score_neg beta) (score_neg alpha))
      as [r1 ->].
    cbn zeta. rewrite Hs. destruct (score_ge _ _); [by exists beta |].
    by apply IH.
Qed.

(** With the assumptions of C10 on captures and promotions, on positions
    where the evaluator and the history lookups do not raise, [quiescence]
    returns a score once the recursion depth exceeds pieces plus pawns. *)
Lemma quiescence_returns (legal_position : Position → Prop) :
  (∀ pos m, m ∈ legal_moves pos → is_capture pos m = true →
     (piece_count (piece_at (make_move pos m)) < piece_count (piece_at pos))%nat
     ∧ (pawn_count (piece_at (make_move pos m)) ≤ pawn_count (piece_at pos))%nat) →
  (∀ pos m, m ∈ legal_moves pos → promotion m ≠ None →
     (pawn_count (piece_at (make_move pos m)) < pawn_count (piece_at pos))%nat
     ∧ (piece_count (piece_at (make_move pos m)) ≤ piece_count (piece_at pos))%nat) →
  (∀ pos, legal_position pos → is_Some (evaluate (piece_at pos))) →
  (∀ pos m, legal_position pos → m ∈ legal_moves pos →
     0 ≤ from_square m < 64 ∧ legal_position (make_move pos m)) →
  ∀ fuel alpha beta s,
    history_wf (history_table s) →
    legal_position (position (board s)) →
    (piece_count (piece_at (position (board s)))
     + pawn_count (piece_at (position (board s))) < fuel)%nat →
    ∃ r, quiescence fuel alpha beta s = Done r s.
Proof.
  intros Hcapture Hpromotion Heval Hlegal.
  induction fuel as [| fuel IH]; intros alpha beta s Hh Hpos Hfuel; [lia |].
  destruct (Heval _ Hpos) as [stand_pat Hsp].
  rewrite (quiescence_unfold _ _ _ _ _ Hsp).
  destruct (score_ge _ _); [by exists beta |].
  assert (Hmoves : is_Some (quiescence_moves s)).
  { unfold quiescence_moves.
    destruct (mapM _ _) as [keyed |] eqn:Ekeyed; [done |].
    exfalso. apply (proj1 (eq_None_not_Some _) Ekeyed). apply mapM_is_Some.
    apply Forall_forall. intros m Hm. cbn.
    destruct (Hlegal _ _ Hpos Hm) as [Hsq _].
    unfold _score_move_mvv_lva.
    destruct (history_lookup _ _ Hh Hsq) as (row & count & -> & Hcount & _).
    cbn. by rewrite Hcount. }
  destruct Hmoves as [moves Emoves]. rewrite Emoves.
  apply quiescence_loop_returns; [apply quiescence_state |].
  intros m Hm Htac a c. rewrite (quiescence_moves_perm _ _ Emoves) in Hm.
  destruct (Hlegal _ _ Hpos Hm) as [_ Hnext].
  apply IH; [by destruct s | by destruct s |].
  cbn [set_board board push position].
  unfold tactical in Htac. apply orb_true_iff in Htac as [Hcap | Hpro].
  - destruct (Hcapture _ _ Hm Hcap). lia.
  - apply bool_decide_eq_true in Hpro. destruct (Hpromotion _ _ Hm Hpro). lia.
Qed.

End Quiescence.

(* ===================================================================== *)
(** ** Search: the board is restored *)

Section SearchFrame.
Context `{RulesEngine}.
Variable clock : nat → Z.

(** Sequences of board-preserving steps preserve the board. *)
Ltac preserves_seq :=
  repeat first
    [ apply preserves_ret
    | apply preserves_get
    | apply preserves_tt_store
    | apply preserves_record_killer
    | apply preserves_bump_history
    | apply preserves_evaluate_board
    | apply preserves_lift
    | apply preserves_deadline_passed
    | apply quiescence_preserves
    | apply preserves_bind; [| intros ?] ].

Lemma search_loop_preserves
    (child : Score → Score → M (option Move * option Score))
    (key : string) (depth : Z) (start_time time_limit : option Z) (beta : Score)
    (moves : list Move) :
  (∀ a b, preserves_board (child a b)) →
  ∀ alpha best_move best_eval,
    preserves_board
      (search_loop clock child key depth start_time time_limit moves alpha beta
         best_move best_eval).
Proof.
  intros Hchild.
  induction moves as [| move rest IH]; intros alpha best_move best_eval.
  - apply preserves_ret.
  - intros s r s' Heq. cbn [search_loop] in Heq. rewrite mbind_M in Heq.
    destruct (deadline_passed _ _ _ s) as [passed s0 | |] eqn:Ed; try discriminate.
    apply preserves_deadline_passed in Ed. rewrite <- Ed. clear Ed s.
    destruct passed.
    { by injection Heq as <- <-. }
    rewrite mbind_M in Heq. cbn [board_push] in Heq. rewrite mbind_M in Heq.
    destruct (child _ _ _) as [[m1 e1] s1 | |] eqn:Ec; try discriminate.
    apply Hchild in Ec. cbn [set_board board] in Ec. cbn [snd] in Heq.
    destruct e1 as [e |].
    + rewrite mbind_M in Heq. unfold board_pop in Heq.
      rewrite Ec, pop_push in Heq. cbn zeta in Heq.
      destruct (score_ge _ _).
      * assert (Hk : ∀ (x : option Move * option Score) e' bm,
                   preserves_board
                     (record_killer depth move;;
                      tt_store key depth e' LOWER bm;;
                      bump_history move;; ret (Returned x)))
          by (intros; preserves_seq).
        apply Hk in Heq. by rewrite Heq.
      * apply IH in Heq. by rewrite Heq.
    + rewrite mbind_M in Heq. unfold board_pop in Heq.
      rewrite Ec, pop_push in Heq. by injection Heq as <- <-.
Qed.

Lemma search_preserves (fuel : nat) :
  ∀ depth alpha beta is_maximizing start_time time_limit,
    preserves_board
      (search clock fuel depth alpha beta is_maximizing start_time time_limit).
Proof.
  induction fuel as [| fuel IH]; intros depth alpha beta is_maximizing st tl.
  - intros s r s' Heq. discriminate.
  - cbn [search]. apply preserves_bind; [apply preserves_deadline_passed |].
    intros passed. destruct passed; [apply preserves_ret |].
    apply preserves_bind; [apply preserves_get |]. intros self.
    destruct (TranspositionTable.lookup _ _ _ _ _) as [[[tt_move tt_eval] tt_flag] |];
      [apply preserves_ret |].
    destruct (_ || _).
    + destruct (depth =? 0); preserves_seq.
    + apply preserves_bind; [apply preserves_lift |]. intros moves.
      apply preserves_bind.
      { apply search_loop_preserves. intros a b. apply IH. }
      intros [result | best_move best_eval]; [apply preserves_ret |].
      destruct (bool_decide _); preserves_seq.
Qed.

(** C9. Whenever [search] or [quiescence] returns, on any path (table hit,
    leaf, cutoff, exhausted moves, either deadline [break], or the deadline
    return at entry), the board, with its stack of saved positions, is the
    board the call started from, and so is the position key. *)
Theorem search_restores_board (fuel : nat) (depth : Z) (alpha beta : Score)
    (is_maximizing : bool) (start_time time_limit : option Z)
    (s : ChessBot) :
  (∀ r s',
     search clock fuel depth alpha beta is_maximizing start_time time_limit s
     = Done r s' →
     board s' = board s
     ∧ generate_transposition_key s' = generate_transposition_key s)
  ∧ (∀ r s',
       quiescence fuel alpha beta s = Done r s' →
       board s' = board s
       ∧ generate_transposition_key s' = generate_transposition_key s).
Proof.
  split; intros r s' Heq.
  - apply search_preserves in Heq. unfold generate_transposition_key.
    by rewrite Heq.
  - apply quiescence_preserves in Heq. unfold generate_transposition_key.
    by rewrite Heq.
Qed.

End SearchFrame.

(* ===================================================================== *)
(** ** The evaluator under colour flip *)

Section ListFacts.
Context {A B : Type}.

Lemma existsb_perm (f : A → bool) (l1 l2 : list A) :
  l1 ≡ₚ l2 → existsb f l1 = existsb f l2.
Proof.
  induction 1 as [| x l1 l2 _ IH | x y l | l1 l2 l3 _ IH1 _ IH2]; cbn.
  - reflexivity.
  - by rewrite IH.
  - by destruct (f x), (f y).
  - congruence.
Qed.

Lemma existsb_fmap (g : A → B) (f : B → bool) (l : list A) :
  existsb f (map g l) = existsb (fun a => f (g a)) l.
Proof. induction l as [| a l IH]; cbn; [done | by rewrite IH]. Qed.

Lemma existsb_flat_map (g : A → list B) (f : B → bool) (l : list A) :
  existsb f (flat_map g l) = existsb (fun a => existsb f (g a)) l.
Proof.
  induction l as [| a l IH]; cbn; [done |]. by rewrite existsb_app, IH.
Qed.

Lemma existsb_filter (P : A → Prop) `{∀ a, Decision (P a)} (f : A → bool)
    (l : list A) :
  existsb f (filter P l) = existsb (fun a => bool_decide (P a) && f a) l.
Proof.
  induction l as [| a l IH]; [done |].
  rewrite filter_cons. cbn [existsb]. rewrite <- IH.
  destruct (decide (P a)) as [Ha | Ha].
  - by rewrite (bool_decide_eq_true_2 _ Ha).
  - by rewrite (bool_decide_eq_false_2 _ Ha).
Qed.

Lemma existsb_ext (f g : A → bool) (l : list A) :
  (∀ a, f a = g a) → existsb f l = existsb g l.
Proof. intros Hfg. induction l as [| a l IH]; cbn; [done | by rewrite Hfg, IH]. Qed.

Lemma same_cells_perm (l1 l2 : list A) : same_cells l1 l2 → l1 ≡ₚ l2.
Proof.
  intros (Hn1 & Hn2 & H12 & H21). apply NoDup_Permutation; [done | done |].
  intros x. split; intros Hx.
  - exact (proj1 (Forall_forall _ _) H12 x Hx).
  - exact (proj1 (Forall_forall _ _) H21 x Hx).
Qed.

End ListFacts.

Lemma Zsum_cons (x : Z) (l : list Z) : Zsum (x :: l) = x + Zsum l.
Proof. reflexivity. Qed.

Lemma Zsum_app (l1 l2 : list Z) : Zsum (l1 ++ l2) = Zsum l1 + Zsum l2.
Proof.
  induction l1 as [| x l1 IH]; [reflexivity |].
  change ((x :: l1) ++ l2) with (x :: (l1 ++ l2)). rewrite !Zsum_cons, IH. lia.
Qed.

Lemma Zsum_perm (l1 l2 : list Z) : l1 ≡ₚ l2 → Zsum l1 = Zsum l2.
Proof.
  induction 1 as [| x l1 l2 _ IH | x y l | l1 l2 l3 _ IH1 _ IH2];
    rewrite ?Zsum_cons; lia.
Qed.

Lemma Zsum_opp {A : Type} (g : A → Z) (l : list A) :
  Zsum (map (fun a => - g a) l) = - Zsum (map g l).
Proof.
  induction l as [| a l IH]; [reflexivity |].
  cbn [map]. rewrite !Zsum_cons, IH. lia.
Qed.

Lemma Zsum_flat_map {A B : Type} (g : A → list B) (h : B → Z) (l : list A) :
  Zsum (map h (flat_map g l)) = Zsum (map (fun a => Zsum (map h (g a))) l).
Proof.
  induction l as [| a l IH]; [reflexivity |].
  cbn [flat_map map]. rewrite map_app, Zsum_app, Zsum_cons, IH. lia.
Qed.

Lemma fold_left_add {A : Type} (g : A → Z) (l : list A) (a : Z) :
  fold_left (fun acc x => acc + g x) l a = a + Zsum (map g l).
Proof.
  revert a. induction l as [| x l IH]; intros a; [cbn; lia |].
  cbn [fold_left map]. rewrite IH, Zsum_cons. lia.
Qed.

Lemma fold_left_ext {A S : Type} (f g : S → A → S) (l : list A) (a : S) :
  (∀ acc x, f acc x = g acc x) → fold_left f l a = fold_left g l a.
Proof.
  intros Hfg. revert a. induction l as [| x l IH]; intros a; cbn; [done |].
  by rewrite Hfg, IH.
Qed.

Lemma py_range_elem (a b x : Z) : a ≤ x < b → x ∈ py_range a b.
Proof.
  intros Hx. unfold py_range. apply list_elem_of_fmap.
  exists (Z.to_nat (x - a)). split; [lia |]. apply elem_of_seq. lia.
Qed.

Lemma flip_geometry_ok (square : Z) : 0 ≤ square < 64 → flip_geometry square.
Proof.
  intros Hsq.
  assert (Hall : Forall flip_geometry (py_range 0 64)).
  { apply (bool_decide_unpack _). vm_compute. reflexivity. }
  apply (proj1 (Forall_forall _ _) Hall). by apply py_range_elem.
Qed.

Lemma squares_in_range : Forall (fun sq => 0 ≤ sq < 64) (py_range_down 63 (-1)).
Proof. apply (bool_decide_unpack _). vm_compute. reflexivity. Qed.

Lemma squares_flip : map flip_vertical (py_range_down 63 (-1)) ≡ₚ py_range_down 63 (-1).
Proof.
  apply same_cells_perm. apply (bool_decide_unpack _). vm_compute. reflexivity.
Qed.

Section EvaluatorSymmetry.
Implicit Types (pa : Placement) (c : bool).

Lemma file_guard (file : Z) :
  (0 <=? file) && (file <? 8) = bool_decide (0 ≤ file < 8).
Proof.
  destruct (Z.leb_spec 0 file), (Z.ltb_spec file 8); cbn;
    symmetry; (apply bool_decide_eq_true_2 || apply bool_decide_eq_false_2); lia.
Qed.

(** The three helpers, over their zones. *)
Lemma _is_passed_pawn_zone pa (square : Z) c :
  _is_passed_pawn pa square c
  = negb (existsb (fun k => pawn_of_color (pa k) (negb c)) (passed_zone square c)).
Proof.
  unfold _is_passed_pawn, passed_zone.
  assert (Hscan : ∀ ranks opp,
    existsb (fun rank =>
      existsb (fun file =>
        (0 <=? file) && (file <? 8) && pawn_of_color (pa (rank * 8 + file)) opp)
        [square mod 8 - 1; square mod 8; square mod 8 + 1]) ranks
    = existsb (fun k => pawn_of_color (pa k) opp)
        (flat_map (fun rank =>
           map (fun file => rank * 8 + file)
             (filter (fun file => 0 ≤ file < 8)
                [square mod 8 - 1; square mod 8; square mod 8 + 1])) ranks)).
  { intros ranks opp. rewrite existsb_flat_map. apply existsb_ext. intros rank.
    rewrite existsb_fmap, existsb_filter. apply existsb_ext. intros file.
    by rewrite file_guard. }
  destruct c; cbn [negb]; by rewrite Hscan.
Qed.

Lemma _is_isolated_pawn_zone pa (square : Z) c :
  _is_isolated_pawn pa square c
  = negb (existsb (fun k => pawn_of_color (pa k) c) (isolated_zone square)).
Proof.
  unfold _is_isolated_pawn, isolated_zone. f_equal.
  rewrite existsb_flat_map, existsb_filter. apply existsb_ext. intros file.
  by rewrite file_guard, existsb_fmap.
Qed.

Lemma _calculate_king_shield_cells pa (square : Z) c :
  _calculate_king_shield pa square c
  = Zsum (map (fun cell : Z * Z =>
                 if pawn_of_color (pa cell.2) c
                 then default 0 (py_getitem king_pawn_shield_scores (Z.min 5 cell.1))
                 else 0)
              (shield_cells square c)).
Proof.
  unfold _calculate_king_shield, shield_cells.
  set (ranks := if c then _ else _). set (files := py_range _ _).
  rewrite Zsum_flat_map.
  rewrite <- (Z.add_0_l (Zsum _)), <- fold_left_add.
  apply fold_left_ext. intros acc file.
  rewrite map_map. cbn [fst snd].
  rewrite <- fold_left_add. apply fold_left_ext. intros acc' rank.
  destruct (pawn_of_color _ _); lia.
Qed.

Lemma pawn_of_color_mirror pa (k : Z) c :
  pawn_of_color (mirror pa k) c = pawn_of_color (pa (flip_vertical k)) (negb c).
Proof.
  unfold mirror. destruct (pa (flip_vertical k)) as [[t col] |]; [| done].
  cbn. by destruct col, c.
Qed.

(** The helpers on the mirrored board. *)
Lemma _is_passed_pawn_mirror pa (square : Z) c :
  0 ≤ square < 64 →
  _is_passed_pawn (mirror pa) (flip_vertical square) (negb c)
  = _is_passed_pawn pa square c.
Proof.
  intros Hsq. pose proof (flip_geometry_ok _ Hsq) as (_ & _ & _ & _ & Hzones).
  assert (Hc : c ∈ [true; false]) by (destruct c; repeat constructor).
  destruct (proj1 (Forall_forall _ _) Hzones c Hc) as [Hpassed _].
  rewrite !_is_passed_pawn_zone. f_equal.
  rewrite <- (existsb_perm _ _ _ (same_cells_perm _ _ Hpassed)).
  rewrite existsb_fmap. apply existsb_ext. intros k.
  by rewrite pawn_of_color_mirror, negb_involutive.
Qed.

Lemma _is_isolated_pawn_mirror pa (square : Z) c :
  0 ≤ square < 64 →
  _is_isolated_pawn (mirror pa) (flip_vertical square) (negb c)
  = _is_isolated_pawn pa square c.
Proof.
  intros Hsq. pose proof (flip_geometry_ok _ Hsq) as (_ & _ & _ & Hiso & _).
  rewrite !_is_isolated_pawn_zone. f_equal.
  rewrite <- (existsb_perm _ _ _ (same_cells_perm _ _ Hiso)).
  rewrite existsb_fmap. apply existsb_ext. intros k.
  by rewrite pawn_of_color_mirror, negb_involutive.
Qed.

Lemma _calculate_king_shield_mirror pa (square : Z) c :
  0 ≤ square < 64 →
  _calculate_king_shield (mirror pa) (flip_vertical square) (negb c)
  = _calculate_king_shield pa square c.
Proof.
  intros Hsq. pose proof (flip_geometry_ok _ Hsq) as (_ & _ & _ & _ & Hzones).
  assert (Hc : c ∈ [true; false]) by (destruct c; repeat constructor).
  destruct (proj1 (Forall_forall _ _) Hzones c Hc) as [_ Hshield].
  rewrite !_calculate_king_shield_cells.
  rewrite <- (Zsum_perm _ _ (Permutation_map _ (same_cells_perm _ _ Hshield))).
  rewrite map_map. f_equal. apply map_ext. intros [file k]. cbn [fst snd].
  by rewrite pawn_of_color_mirror, negb_involutive.
Qed.

Lemma piece_value_mirror pa (square : Z) (piece : Piece) :
  0 ≤ square < 64 →
  piece_value (mirror pa) (flip_vertical square) (swap_color piece)
  = piece_value pa square piece.
Proof.
  intros Hsq. pose proof (flip_geometry_ok _ Hsq) as (_ & _ & Hrank & _).
  destruct piece as [t c]. unfold piece_value, swap_color.
  cbn [piece_type color].
  rewrite _is_passed_pawn_mirror, _is_isolated_pawn_mirror,
    _calculate_king_shield_mirror by done.
  rewrite Hrank. destruct t; try reflexivity.
  destruct c; cbn [negb]; [| reflexivity].
  by replace (7 - (7 - square / 8)) with (square / 8) by lia.
Qed.

(** The contribution of a square of the mirrored board: the score changes
    sign, the isolated-pawn counts change sides. *)
Lemma contribution_mirror pa (square : Z) :
  0 ≤ square < 64 →
  contribution (mirror pa) (flip_vertical square)
  = let '(value, white_isolated, black_isolated) := contribution pa square in
    (- value, black_isolated, white_isolated).
Proof.
  intros Hsq. pose proof (flip_geometry_ok _ Hsq) as (_ & Hinv & _).
  unfold contribution. unfold mirror at 1. rewrite Hinv.
  destruct (pa square) as [piece |]; [| reflexivity].
  cbn [fmap option_fmap option_map]. rewrite piece_value_mirror by done.
  destruct (piece_value pa square piece) as [value isolated].
  destruct piece as [t c]. cbn [swap_color color negb].
  destruct c; cbn [negb]; [reflexivity |]. by rewrite Z.opp_involutive.
Qed.

Lemma triple_eq (a a' b b' d d' : Z) :
  a = a' → b = b' → d = d' → (a, b, d) = (a', b', d').
Proof. by intros -> -> ->. Qed.

(** The loop of [evaluate] adds up the contributions of the 64 squares. *)
Lemma evaluate_loop pa :
  fold_left (evaluate_step pa) (piece_map pa) (0, 0, 0)
  = (Zsum (map (fun sq => (contribution pa sq).1.1) (py_range_down 63 (-1))),
     Zsum (map (fun sq => (contribution pa sq).1.2) (py_range_down 63 (-1))),
     Zsum (map (fun sq => (contribution pa sq).2) (py_range_down 63 (-1)))).
Proof.
  unfold piece_map.
  assert (Hgen : ∀ (l : list Z) (e w b : Z),
    fold_left (evaluate_step pa)
      (omap (fun sq => match pa sq with Some p => Some (sq, p) | None => None end) l)
      (e, w, b)
    = (e + Zsum (map (fun sq => (contribution pa sq).1.1) l),
       w + Zsum (map (fun sq => (contribution pa sq).1.2) l),
       b + Zsum (map (fun sq => (contribution pa sq).2) l))).
  { induction l as [| sq l IH]; intros e w b.
    - cbn. apply triple_eq; lia.
    - cbn [omap list_omap map]. rewrite !Zsum_cons. unfold contribution at 1 3 5.
      destruct (pa sq) as [piece |].
      + cbn [fold_left]. unfold evaluate_step at 2.
        destruct (piece_value pa sq piece) as [value isolated].
        destruct (color piece), isolated; rewrite IH; cbn [fst snd];
          apply triple_eq; lia.
      + rewrite IH. cbn [fst snd]. apply triple_eq; lia. }
  rewrite Hgen. apply triple_eq; lia.
Qed.

(** C8. Evaluating the mirrored board (ranks flipped, colours swapped) gives
    exactly the negation of the original score; [evaluate] raises on the one
    board exactly when it raises on the other. *)
Theorem evaluate_mirror pa : evaluate (mirror pa) = Z.opp <$> evaluate pa.
Proof.
  unfold evaluate. rewrite !evaluate_loop.
  assert (Hflip : ∀ (proj : Z * Z * Z → Z),
    Zsum (map (fun sq => proj (contribution (mirror pa) sq)) (py_range_down 63 (-1)))
    = Zsum (map (fun sq =>
                   proj (let '(value, white_isolated, black_isolated) :=
                           contribution pa sq in
                         (- value, black_isolated, white_isolated)))
                (py_range_down 63 (-1)))).
  { intros proj.
    rewrite <- (Zsum_perm _ _ (Permutation_map _ squares_flip)), map_map.
    f_equal. apply map_ext_in. intros sq Hsq.
    rewrite contribution_mirror; [done |].
    apply (proj1 (Forall_forall _ _) squares_in_range).
    by apply list_elem_of_In. }
  rewrite (Hflip (fun t => t.1.1)), (Hflip (fun t => t.1.2)), (Hflip (fun t => t.2)).
  set (squares := py_range_down 63 (-1)).
  assert (He : Zsum (map (fun sq => (let '(value, wi, bi) := contribution pa sq in
                                     (- value, bi, wi)).1.1) squares)
               = - Zsum (map (fun sq => (contribution pa sq).1.1) squares)).
  { rewrite <- Zsum_opp. f_equal. apply map_ext. intros sq.
    by destruct (contribution pa sq) as [[? ?] ?]. }
  assert (Hw : map (fun sq => (let '(value, wi, bi) := contribution pa sq in
                               (- value, bi, wi)).1.2) squares
               = map (fun sq => (contribution pa sq).2) squares).
  { apply map_ext. intros sq. by destruct (contribution pa sq) as [[? ?] ?]. }
  assert (Hb : map (fun sq => (let '(value, wi, bi) := contribution pa sq in
                               (- value, bi, wi)).2) squares
               = map (fun sq => (contribution pa sq).1.2) squares).
  { apply map_ext. intros sq. by destruct (contribution pa sq) as [[? ?] ?]. }
  rewrite He, Hw, Hb.
  destruct (py_getitem isolated_pawn_penalty (Zsum (map _ squares))) as [pb |],
    (py_getitem isolated_pawn_penalty (Zsum (map _ squares))) as [pw |];
    cbn; try reflexivity.
  f_equal. lia.
Qed.

End EvaluatorSymmetry.

(* ===================================================================== *)
(** ** Search and the deadline *)

Section Deadline.
Context `{RulesEngine}.
Variable clock : nat → Z.


(** The score that [search] returns is never [None]: the test
    [eval_score is None] of the loop cannot succeed. *)
Lemma search_loop_score
    (child : Score → Score → M (option Move * option Score))
    (key : string) (depth : Z) (start_time time_limit : option Z) (beta : Score)
    (moves : list Move) :
  ∀ alpha best_move best_eval s result s',
    search_loop clock child key depth start_time time_limit moves alpha beta
      best_move best_eval s = Done (Returned result) s' →
    result.2 ≠ None.
Proof.
  induction moves as [| move rest IH];
    intros alpha best_move best_eval s result s' Heq.
  - discriminate.
  - cbn [search_loop] in Heq. rewrite mbind_M in Heq.
    destruct (deadline_passed _ _ _ s) as [passed s0 | |]; try discriminate.
    destruct passed; [discriminate |].
    rewrite mbind_M in Heq. cbn [board_push] in Heq. rewrite mbind_M in Heq.
    destruct (child _ _ _) as [[m1 e1] s1 | |]; try discriminate.
    cbn [snd] in Heq. destruct e1 as [e |].
    + rewrite mbind_M in Heq. destruct (board_pop s1) as [[] s2 | |];
        try discriminate.
      cbn zeta in Heq. destruct (score_ge _ _); [| by eauto].
      rewrite mbind_M in Heq.
      destruct (record_killer depth move s2) as [[] s3 | |]; try discriminate.
      rewrite mbind_M in Heq. cbn [tt_store] in Heq. rewrite mbind_M in Heq.
      destruct (bump_history move _) as [[] s4 | |]; try discriminate.
      injection Heq as <- <-. cbn. discriminate.
    + rewrite mbind_M in Heq. destruct (board_pop s1) as [[] s2 | |];
        discriminate.
Qed.

Lemma search_score_never_None (fuel : nat) (depth : Z) (alpha beta : Score)
    (is_maximizing : bool) (start_time time_limit : option Z)
    (s : ChessBot) (result : option Move * option Score) (s' : ChessBot) :
  search clock fuel depth alpha beta is_maximizing start_time time_limit s
  = Done result s' →
  result.2 ≠ None.
Proof.
  destruct fuel as [| fuel]; [discriminate |].
  cbn [search]. rewrite mbind_M.
  destruct (deadline_passed _ _ _ s) as [passed s0 | |]; try discriminate.
  destruct passed.
  { intros Heq. injection Heq as <- <-. discriminate. }
  rewrite mbind_M. cbn [get].
  destruct (TranspositionTable.lookup _ _ _ _ _) as [[[tt_move tt_eval] tt_flag] |].
  { intros Heq. injection Heq as <- <-. discriminate. }
  destruct (_ || _).
  - rewrite mbind_M.
    match goal with
    | |- match ?c with _ => _ end = _ → _ => destruct c as [e s1 | |]
    end; try discriminate.
    rewrite mbind_M. cbn [tt_store]. intros Heq. injection Heq as <- <-.
    discriminate.
  - rewrite mbind_M. destruct (lift _ s0) as [moves s1 | |]; try discriminate.
    rewrite mbind_M.
    destruct (search_loop _ _ _ _ _ _ _ _ _ _ _ s1) as [[r | bm be] s2 | |] eqn:El;
      try discriminate.
    + intros Heq. injection Heq as <- <-. by eapply search_loop_score.
    + rewrite mbind_M.
      match goal with
      | |- match ?c with _ => _ end = _ → _ => destruct c as [v s3 | |]
      end; try discriminate.
      rewrite mbind_M. cbn [tt_store]. intros Heq. injection Heq as <- <-.
      discriminate.
Qed.

(** C3, as the code has it.  With a time budget of 0 and a clock that does
    not run backwards between its first two readings, [iterative_deepening]
    stops at the check before depth 1: it starts no search, returns no move,
    and leaves the board, the tables and the heuristics as they were. *)
Theorem iterative_deepening_zero_budget (fuel : nat) (max_depth : Z)
    (s : ChessBot) :
  clock (clock_reads s) ≤ clock (S (clock_reads s)) →
  ∃ s',
    iterative_deepening clock fuel max_depth 0 s = Done None s'
    ∧ board s' = board s
    ∧ transposition_table s' = transposition_table s
    ∧ killer_moves s' = killer_moves s
    ∧ history_table s' = history_table s.
Proof.
  intros Hclock. unfold iterative_deepening. rewrite mbind_M.
  cbn [time_time iterative_deepening_loop].
  destruct (1 <=? max_depth).
  - rewrite mbind_M. cbn [time_time clock_reads].
    destruct (Z.geb_spec (clock (S (clock_reads s)) - clock (clock_reads s)) 0);
      [| lia].
    eexists. split; [reflexivity |]. repeat split.
  - eexists. split; [reflexivity |]. repeat split.
Qed.

End Deadline.

(* ===================================================================== *)
(** ** Worked examples on the pawn ending *)

Module ScenarioExamples.
Import Scenario.

(** The static evaluations of the four positions. *)
Example evaluate_root : evaluate (piece_on root) = Some (-11).
Proof. vm_compute. reflexivity. Qed.

(** An undisturbed depth-1 search from [root] examines both moves and
    prefers the capture. *)
Example search_depth_1 :
  ∃ s', search (fun _ => 0) 5 1 NegInf PosInf true None None (bot_at root)
        = Done (Some gxh6, Some (Fin 65)) s'
        ∧ TranspositionTable.table (transposition_table s') !! key_of after_Ka2
          = Some (TranspositionTable.mkEntry 0 (Fin (-65)) EXACT None).
Proof. eexists. split; vm_compute; reflexivity. Qed.

(** C1 (the code departs from it).  The clock reads 0, 0 and from then on 5;
    the search starts at time 0 with a limit of 5.  The deadline passes
    between the check before the first move and the entry of the child.
    The child returns [(None, 0)]; the parent negates the 0, takes it as the
    score of g5xh6, which was never searched, makes it the best move, and,
    leaving the loop at the next check, stores it as an EXACT entry and
    returns it. *)
Theorem search_deadline_zero_taken_as_score :
  let clock := fun n : nat => if (n <? 2)%nat then 0 else 5 in
  let entered_late :=
    {| board := push (board (bot_at root)) gxh6;
       history_table := history_table (bot_at root);
       killer_moves := killer_moves (bot_at root);
       transposition_table := transposition_table (bot_at root);
       clock_reads := 2 |} in
  (∃ s', search clock 4 0 NegInf PosInf false (Some 0) (Some 5) entered_late
         = Done (None, Some (Fin 0)) s')
  ∧ (∃ s', search clock 5 1 NegInf PosInf true (Some 0) (Some 5) (bot_at root)
           = Done (Some gxh6, Some (Fin 0)) s'
           ∧ TranspositionTable.table (transposition_table s') !! key_of root
             = Some (TranspositionTable.mkEntry 1 (Fin 0) EXACT (Some gxh6))
           ∧ TranspositionTable.table (transposition_table s') !! key_of after_gxh6
             = None).
Proof.
  intros clock entered_late. split.
  - eexists. vm_compute. reflexivity.
  - eexists. repeat split; vm_compute; reflexivity.
Qed.

(** C2 (the code departs from it).  The clock reads 0 three times and then 5:
    the first child (g5xh6) completes, the check before the second move
    (Ka2) fires.  The node does not discard its partial result: it stores
    g5xh6 with its score as an EXACT entry for the root position and returns
    it, although Ka2 was never examined. *)
Theorem search_abort_stores_partial_result :
  let clock := fun n : nat => if (n <? 3)%nat then 0 else 5 in
  ∃ s', search clock 5 1 NegInf PosInf true (Some 0) (Some 5) (bot_at root)
        = Done (Some gxh6, Some (Fin 65)) s'
        ∧ TranspositionTable.table (transposition_table s') !! key_of root
          = Some (TranspositionTable.mkEntry 1 (Fin 65) EXACT (Some gxh6))
        ∧ TranspositionTable.table (transposition_table s') !! key_of after_Ka2
          = None
        ∧ clock_reads s' = 4%nat.
Proof.
  intros clock. eexists. repeat split; vm_compute; reflexivity.
Qed.

(** C3 fails as stated: from [root], where White has two legal moves and a
    depth-1 search finds g5xh6, [iterative_deepening] with a budget of 0
    returns no move, on a clock that stands still. *)
Lemma iterative_deepening_zero_budget_counterexample :
  legal_moves root = [Ka2; gxh6]
  ∧ (∃ s', search (fun _ => 0) 5 1 NegInf PosInf true None None (bot_at root)
           = Done (Some gxh6, Some (Fin 65)) s')
  ∧ (∃ s', iterative_deepening (fun _ => 0) 5 1 0 (bot_at root) = Done None s')
  ∧ ¬ (∃ m s', iterative_deepening (fun _ => 0) 5 1 0 (bot_at root)
               = Done (Some m) s').
Proof.
  split; [reflexivity |]. split; [eexists; vm_compute; reflexivity |].
  split; [eexists; vm_compute; reflexivity |].
  intros (m & s' & Heq). vm_compute in Heq. discriminate.
Qed.

Lemma iterative_deepening_zero_budget_witness :
  ∃ s', iterative_deepening (fun _ => 0) 5 3 0 (bot_at root) = Done None s'
        ∧ board s' = board (bot_at root)
        ∧ transposition_table s' = transposition_table (bot_at root)
        ∧ killer_moves s' = killer_moves (bot_at root)
        ∧ history_table s' = history_table (bot_at root).
Proof.
  apply (iterative_deepening_zero_budget (fun _ => 0) 5 3 (bot_at root)).
  simpl. lia.
Defined.

(** At [root] the stand-pat value is -11: against [beta = -20] it cuts off at
    once; in the full window the capture is expanded and the result, 65, is
    not below -11. *)
Lemma quiescence_spec_witness :
  quiescence 1 NegInf (Fin (-20)) (bot_at root) = Done (Fin (-20)) (bot_at root)
  ∧ ∃ r s', quiescence 3 NegInf PosInf (bot_at root) = Done r s'
            ∧ score_le (Fin (-11)) r = true.
Proof.
  split.
  - apply (quiescence_spec 0 NegInf (Fin (-20)) (bot_at root) (-11)).
    + vm_compute. reflexivity.
    + vm_compute. reflexivity.
  - destruct (quiescence 3 NegInf PosInf (bot_at root)) as [r s' | |] eqn:Eq.
    + exists r, s'. split; [reflexivity |].
      destruct (quiescence_spec 2 NegInf PosInf (bot_at root) (-11)) as [_ Hopen].
      { vm_compute. reflexivity. }
      destruct Hopen as [_ Hbound]; [vm_compute; reflexivity |].
      exact (proj1 (Hbound r s' Eq)).
    + vm_compute in Eq. discriminate.
    + vm_compute in Eq. discriminate.
Defined.

Lemma order_moves_spec_witness :
  ∃ ordered,
    order_moves (bot_at root) [Ka2; gxh6] 1 = Some ordered
    ∧ ordered ≡ₚ [Ka2; gxh6]
    ∧ StronglySorted
        (fun a b => spec_move_score (bot_at root) 1 b
                    ≤ spec_move_score (bot_at root) 1 a) ordered
    ∧ ∀ k, filter (fun m => spec_move_score (bot_at root) 1 m = k) ordered
           = filter (fun m => spec_move_score (bot_at root) 1 m = k) [Ka2; gxh6].
Proof.
  apply (order_moves_spec (bot_at root) [Ka2; gxh6] 1).
  - split; [reflexivity |]. repeat constructor.
  - repeat constructor; simpl; lia.
  - lia.
Defined.

(** A search cut short by the deadline, and a quiescence search, both return
    with the board they started from. *)
Lemma search_restores_board_witness :
  let clock := fun n : nat => if (n <? 3)%nat then 0 else 5 in
  (∃ r s', search clock 5 1 NegInf PosInf true (Some 0) (Some 5) (bot_at root)
           = Done r s'
           ∧ board s' = board (bot_at root)
           ∧ generate_transposition_key s' = generate_transposition_key (bot_at root))
  ∧ (∃ r s', quiescence 5 NegInf PosInf (bot_at after_Ka2) = Done r s'
             ∧ board s' = board (bot_at after_Ka2)
             ∧ generate_transposition_key s'
               = generate_transposition_key (bot_at after_Ka2)).
Proof.
  intros clock. split.
  - destruct (search clock 5 1 NegInf PosInf true (Some 0) (Some 5) (bot_at root))
      as [r s' | |] eqn:Es.
    + exists r, s'. split; [reflexivity |].
      exact (proj1 (search_restores_board clock 5 1 NegInf PosInf true
                      (Some 0) (Some 5) (bot_at root)) r s' Es).
    + vm_compute in Es. discriminate.
    + vm_compute in Es. discriminate.
  - destruct (quiescence 5 NegInf PosInf (bot_at after_Ka2)) as [r s' | |] eqn:Eq.
    + exists r, s'. split; [reflexivity |].
      exact (proj2 (search_restores_board clock 5 0 NegInf PosInf true
                      None None (bot_at after_Ka2)) r s' Eq).
    + vm_compute in Eq. discriminate.
    + vm_compute in Eq. discriminate.
Defined.

(** In the pawn ending every tabulated capture removes a piece; there is no
    promotion.  [root] holds five pieces, three of them pawns: a recursion
    depth of nine suffices. *)
Lemma quiescence_terminates_witness :
  quiescence 9 NegInf PosInf (bot_at root) ≠ OutOfFuel
  ∧ ∃ s', quiescence 9 NegInf PosInf (bot_at root) = Done (Fin 65) s'.
Proof.
  split; [| eexists; vm_compute; reflexivity].
  apply quiescence_terminates.
  - intros pos m Hm Hcap. cbn [legal_moves engine] in Hm. unfold moves_of in Hm.
    repeat case_bool_decide; subst;
      repeat (apply elem_of_cons in Hm as [-> | Hm]);
      try (by apply elem_of_nil in Hm);
      try (vm_compute in Hcap; discriminate);
      split; vm_compute; lia.
  - intros pos m Hm Hpro. cbn [legal_moves engine] in Hm. unfold moves_of in Hm.
    repeat case_bool_decide; subst;
      repeat (apply elem_of_cons in Hm as [-> | Hm]);
      try (by apply elem_of_nil in Hm);
      exfalso; apply Hpro; reflexivity.
  - vm_compute. lia.
Defined.

End ScenarioExamples.

(* ===================================================================== *)
(** * Further properties of the code *)

(** ** Transposition table: store and lookup together *)

Section TranspositionTableRoundTrip.
Import TranspositionTable.

(** X1.  A probe for the key just stored, at a depth not above the stored one and
    with a window that the flag admits, returns what was stored; a deeper
    probe misses. *)
Theorem store_then_lookup (self : t) (key : string) (depth : Z)
    (eval_score : Score) (flag : Flag) (best_move : option Move)
    (probe_depth : Z) (alpha beta : Score) :
  let self' := store self key depth eval_score flag best_move in
  (probe_depth ≤ depth →
   flag = EXACT
   ∨ (flag = LOWER ∧ score_ge eval_score beta = true)
   ∨ (flag = UPPER ∧ score_le eval_score alpha = true) →
   lookup self' key probe_depth alpha beta = Some (best_move, eval_score, flag))
  ∧ (depth < probe_depth → lookup self' key probe_depth alpha beta = None).
Proof.
  intros self'. subst self'. unfold lookup, store. cbn [table].
  rewrite lookup_insert_eq. split.
  - intros Hd Husable.
    destruct (Z.geb_spec depth probe_depth) as [_ | ?]; [| lia].
    destruct Husable as [-> | [[-> Hge] | [-> Hle]]]; cbn.
    + reflexivity.
    + by rewrite Hge.
    + by rewrite Hle.
  - intros Hd. destruct (Z.geb_spec depth probe_depth) as [? | _]; [lia | done].
Qed.

Lemma store_then_lookup_witness :
  lookup (store (init 10) "k" 3 (Fin 7) LOWER None) "k" 2 (Fin 0) (Fin 5)
  = Some (None, Fin 7, LOWER)
  ∧ lookup (store (init 10) "k" 3 (Fin 7) LOWER None) "k" 4 (Fin 0) (Fin 5) = None.
Proof.
  destruct (store_then_lookup (init 10) "k" 3 (Fin 7) LOWER None 2 (Fin 0) (Fin 5))
    as [Hhit _].
  destruct (store_then_lookup (init 10) "k" 3 (Fin 7) LOWER None 4 (Fin 0) (Fin 5))
    as [_ Hmiss].
  split.
  - apply Hhit; [lia |]. right. left. split; reflexivity.
  - apply Hmiss. lia.
Defined.

(** X2.  With a non-negative capacity, the table holds at most [capacity + 1]
    entries after any [store], whatever it held before. *)
Theorem store_size_bound (self : t) (key : string) (depth : Z)
    (eval_score : Score) (flag : Flag) (best_move : option Move) :
  0 ≤ capacity self →
  Z.of_nat (size (table (store self key depth eval_score flag best_move)))
  ≤ capacity self + 1.
Proof.
  intros Hcap. unfold store. cbn [table].
  destruct (Z.gtb_spec (Z.of_nat (size (table self))) (capacity self)) as [Hgt | Hle].
  - rewrite insert_empty, map_size_singleton. lia.
  - destruct (table self !! key) as [e |] eqn:Ekey.
    + rewrite map_size_insert_Some by eauto. lia.
    + rewrite map_size_insert_None by done. lia.
Qed.

Lemma store_size_bound_witness :
  Z.of_nat (size (table (store (store (store (init 1) "a" 1 (Fin 1) EXACT None)
                                  "b" 1 (Fin 1) EXACT None)
                           "c" 1 (Fin 1) EXACT None)))
  ≤ 1 + 1.
Proof.
  apply (store_size_bound
           (store (store (init 1) "a" 1 (Fin 1) EXACT None) "b" 1 (Fin 1) EXACT None)
           "c" 1 (Fin 1) EXACT None).
  simpl. lia.
Defined.

(** X3.  What a [store] does to the other keys: when it clears the table (more
    entries than the capacity), every other key misses afterwards; when it
    does not, every probe of another key answers as before. *)
Theorem store_other_keys (self : t) (key key' : string) (depth : Z)
    (eval_score : Score) (flag : Flag) (best_move : option Move)
    (probe_depth : Z) (alpha beta : Score) :
  key ≠ key' →
  let self' := store self key depth eval_score flag best_move in
  (Z.of_nat (size (table self)) > capacity self →
   lookup self' key' probe_depth alpha beta = None)
  ∧ (Z.of_nat (size (table self)) ≤ capacity self →
     lookup self' key' probe_depth alpha beta
     = lookup self key' probe_depth alpha beta).
Proof.
  intros Hne self'. subst self'. unfold lookup, store. cbn [table].
  rewrite lookup_insert_ne by done. split; intros Hsize.
  - destruct (Z.gtb_spec (Z.of_nat (size (table self))) (capacity self)); [| lia].
    by rewrite lookup_empty.
  - destruct (Z.gtb_spec (Z.of_nat (size (table self))) (capacity self)); [lia |].
    reflexivity.
Qed.

Lemma store_other_keys_witness :
  let full := store (init 0) "a" 1 (Fin 1) EXACT None in
  lookup (store full "b" 1 (Fin 2) EXACT None) "a" 1 NegInf PosInf = None
  ∧ lookup (store (init 5) "b" 1 (Fin 2) EXACT None) "a" 1 NegInf PosInf
    = lookup (init 5) "a" 1 NegInf PosInf.
Proof.
  intros full. split.
  - apply (store_other_keys full "b" "a" 1 (Fin 2) EXACT None 1 NegInf PosInf).
    + discriminate.
    + vm_compute. reflexivity.
  - apply (store_other_keys (init 5) "b" "a" 1 (Fin 2) EXACT None 1 NegInf PosInf).
    + discriminate.
    + vm_compute. discriminate.
Defined.

(** X4.  After [clear] every probe misses, the capacity is kept, and the next
    [store] leaves exactly one entry. *)
Theorem clear_forgets (self : t) (key : string) (depth : Z) (alpha beta : Score)
    (eval_score : Score) (flag : Flag) (best_move : option Move) :
  lookup (clear self) key depth alpha beta = None
  ∧ capacity (clear self) = capacity self
  ∧ table (store (clear self) key depth eval_score flag best_move)
    = {[key := mkEntry depth eval_score flag best_move]}.
Proof.
  split; [| split].
  - unfold lookup, clear. cbn [table]. by rewrite lookup_empty.
  - reflexivity.
  - unfold store, clear. cbn [table capacity].
    destruct (_ >? _); apply insert_empty.
Qed.

End TranspositionTableRoundTrip.

(* ===================================================================== *)
(** ** The evaluator: errors, material, pawn structure *)

Section EvaluatorFacts.
Implicit Types (pa : Placement) (c : bool).

Lemma py_range_spec (a b x : Z) : x ∈ py_range a b ↔ a ≤ x < b.
Proof.
  split; [| apply py_range_elem].
  unfold py_range. intros Hx. apply list_elem_of_fmap in Hx as (k & -> & Hk).
  apply elem_of_seq in Hk. lia.
Qed.

Lemma py_range_down_spec (a b x : Z) : x ∈ py_range_down a b ↔ b < x ≤ a.
Proof.
  unfold py_range_down. split.
  - intros Hx. apply list_elem_of_fmap in Hx as (k & -> & Hk).
    apply elem_of_seq in Hk. lia.
  - intros Hx. apply list_elem_of_fmap. exists (Z.to_nat (a - x)).
    split; [lia |]. apply elem_of_seq. lia.
Qed.

Lemma squares_ascending : py_range_down 63 (-1) ≡ₚ py_range 0 64.
Proof.
  apply same_cells_perm. apply (bool_decide_unpack _). vm_compute. reflexivity.
Qed.

Lemma Zsum_indicator {A : Type} (b : A → bool) (l : list A) :
  Zsum (map (fun x => if b x then 1 else 0) l)
  = Z.of_nat (length (filter (fun x => b x = true) l)).
Proof.
  induction l as [| x l IH]; [reflexivity |].
  cbn [map]. rewrite Zsum_cons, filter_cons, IH.
  destruct (b x); [rewrite decide_True by done | rewrite decide_False by done];
    cbn [length]; lia.
Qed.

Lemma Zsum_le {A : Type} (f g : A → Z) (l : list A) :
  (∀ x, x ∈ l → f x ≤ g x) → Zsum (map f l) ≤ Zsum (map g l).
Proof.
  induction l as [| x l IH]; intros Hfg; [reflexivity |].
  cbn [map]. rewrite !Zsum_cons.
  pose proof (Hfg x (list_elem_of_here _ _)).
  assert (Zsum (map f l) ≤ Zsum (map g l)).
  { apply IH. intros y Hy. apply Hfg. by right. }
  lia.
Qed.

(** The isolated-pawn counters of [evaluate]. *)
Lemma contribution_isolated pa (sq : Z) :
  (contribution pa sq).1.2
  = (if pawn_of_color (pa sq) true && _is_isolated_pawn pa sq true then 1 else 0)
  ∧ (contribution pa sq).2
    = (if pawn_of_color (pa sq) false && _is_isolated_pawn pa sq false then 1 else 0).
Proof.
  unfold contribution, piece_value, pawn_of_color.
  destruct (pa sq) as [[t col] |]; [| done].
  cbn [piece_type color]. destruct t, col; cbn; try done;
    by destruct (_is_isolated_pawn pa sq _).
Qed.

Lemma isolated_pawns_sum pa c :
  Z.of_nat (isolated_pawns pa c)
  = Zsum (map (fun sq => if pawn_of_color (pa sq) c && _is_isolated_pawn pa sq c
                         then 1 else 0)
              (py_range 0 64)).
Proof.
  rewrite Zsum_indicator. unfold isolated_pawns. do 2 f_equal.
  apply list_filter_iff. intros sq. by rewrite andb_true_iff.
Qed.

Lemma evaluate_counters pa :
  fold_left (evaluate_step pa) (piece_map pa) (0, 0, 0)
  = (Zsum (map (fun sq => (contribution pa sq).1.1) (py_range 0 64)),
     Z.of_nat (isolated_pawns pa true),
     Z.of_nat (isolated_pawns pa false)).
Proof.
  rewrite evaluate_loop.
  apply triple_eq;
    rewrite (Zsum_perm _ _ (Permutation_map _ squares_ascending));
    [reflexivity | |];
    rewrite isolated_pawns_sum;
    f_equal; apply map_ext; intros sq; apply contribution_isolated.
Qed.

Lemma penalty_lookup (n : nat) :
  py_getitem isolated_pawn_penalty (Z.of_nat n) = None ↔ (8 < n)%nat.
Proof.
  rewrite py_getitem_nonneg by lia. rewrite Nat2Z.id.
  rewrite lookup_ge_None. cbn. lia.
Qed.

Lemma evaluate_None_iff pa :
  evaluate pa = None
  ↔ (8 < isolated_pawns pa true)%nat ∨ (8 < isolated_pawns pa false)%nat.
Proof.
  unfold evaluate. rewrite evaluate_counters.
  rewrite <- !penalty_lookup.
  destruct (py_getitem _ (Z.of_nat (isolated_pawns pa true))),
    (py_getitem _ (Z.of_nat (isolated_pawns pa false)));
    (split;
     [ intros Heq; first [discriminate Heq | by left | by right]
     | intros [Heq | Heq]; first [discriminate Heq | reflexivity] ]).
Qed.

(** X5.  [evaluate] raises (the [IndexError] of the penalty table) exactly when
    one side has more than eight isolated pawns. *)
Theorem evaluate_raises_iff pa :
  evaluate pa = None
  ↔ (8 < isolated_pawns pa true)%nat ∨ (8 < isolated_pawns pa false)%nat.
Proof. apply evaluate_None_iff. Qed.

Lemma isolated_le_pawns pa c : (isolated_pawns pa c ≤ pawns_of pa c)%nat.
Proof.
  unfold isolated_pawns, pawns_of.
  induction (py_range 0 64) as [| sq l IH]; [done |].
  rewrite !filter_cons.
  destruct (decide (pawn_of_color (pa sq) c = true)) as [Hp | Hp].
  - destruct (decide (_ ∧ _)); cbn [length]; lia.
  - rewrite decide_False by tauto. done.
Qed.

(** X6.  With at most eight pawns a side, as in any position of a game,
    [evaluate] returns a score. *)
Theorem evaluate_returns pa :
  (pawns_of pa true ≤ 8)%nat → (pawns_of pa false ≤ 8)%nat →
  ∃ score, evaluate pa = Some score.
Proof.
  intros Hw Hb. destruct (evaluate pa) as [score |] eqn:Eev; [by exists score |].
  apply evaluate_None_iff in Eev.
  pose proof (isolated_le_pawns pa true). pose proof (isolated_le_pawns pa false).
  lia.
Qed.

Lemma Zsum_zero {A : Type} (f : A → Z) (l : list A) :
  (∀ x, x ∈ l → f x = 0) → Zsum (map f l) = 0.
Proof.
  induction l as [| x l IH]; intros Hf; [reflexivity |].
  cbn [map]. rewrite Zsum_cons, (Hf x (list_elem_of_here _ _)), IH; [done |].
  intros y Hy. apply Hf. by right.
Qed.

(** The cells of a king's shield lie on the board, carry non-negative
    weights, and the weights of one shield add up to 30 at most. *)
Lemma shield_cells_facts (square : Z) c :
  0 ≤ square < 64 →
  Forall (fun cell : Z * Z =>
            0 ≤ cell.2 < 64
            ∧ 0 ≤ default 0 (py_getitem king_pawn_shield_scores (Z.min 5 cell.1)))
         (shield_cells square c)
  ∧ Zsum (map (fun cell : Z * Z =>
                 default 0 (py_getitem king_pawn_shield_scores (Z.min 5 cell.1)))
              (shield_cells square c)) ≤ 30.
Proof.
  intros Hsq.
  assert (Hall : Forall (fun sq => Forall (fun c : bool =>
      Forall (fun cell : Z * Z =>
                0 ≤ cell.2 < 64
                ∧ 0 ≤ default 0 (py_getitem king_pawn_shield_scores (Z.min 5 cell.1)))
             (shield_cells sq c)
      ∧ Zsum (map (fun cell : Z * Z =>
                     default 0 (py_getitem king_pawn_shield_scores (Z.min 5 cell.1)))
                  (shield_cells sq c)) ≤ 30) [true; false]) (py_range 0 64)).
  { apply (bool_decide_unpack _). vm_compute. reflexivity. }
  pose proof (proj1 (Forall_forall _ _) Hall square (py_range_elem _ _ _ Hsq)) as Hc.
  apply (proj1 (Forall_forall _ _) Hc c). destruct c; repeat constructor.
Qed.

(** X8.  The pawn shield of a king on the board is worth between 0 and 30. *)
Theorem king_shield_bounds pa (square : Z) c :
  0 ≤ square < 64 → 0 ≤ _calculate_king_shield pa square c ≤ 30.
Proof.
  intros Hsq. destruct (shield_cells_facts square c Hsq) as [Hcells Hsum].
  rewrite _calculate_king_shield_cells. split.
  - assert (Hz : Zsum (map (fun _ : Z * Z => 0) (shield_cells square c)) = 0)
      by (by apply Zsum_zero).
    rewrite <- Hz at 1. apply Zsum_le. intros cell Hcell.
    destruct (proj1 (Forall_forall _ _) Hcells cell Hcell) as [_ Hw].
    cbn beta in *. destruct (pawn_of_color _ _); lia.
  - etrans; [| exact Hsum]. apply Zsum_le. intros cell Hcell.
    destruct (proj1 (Forall_forall _ _) Hcells cell Hcell) as [_ Hw].
    cbn beta in *. destruct (pawn_of_color _ _); lia.
Qed.

(** X7.  On a board without pawns [evaluate] is the material balance: knights and
    bishops 3, rooks 5, queens 10, kings nothing. *)
Theorem evaluate_without_pawns pa :
  (∀ sq c, 0 ≤ sq < 64 → pawn_of_color (pa sq) c = false) →
  evaluate pa = Some (material_balance pa).
Proof.
  intros Hnone.
  assert (Hiso : ∀ c, isolated_pawns pa c = 0%nat).
  { intros c. unfold isolated_pawns.
    destruct (filter _ _) as [| sq l] eqn:Efilter; [done |].
    assert (Hin : sq ∈ sq :: l) by left.
    rewrite <- Efilter in Hin. apply list_elem_of_filter in Hin as [[Hp _] Hsq].
    apply py_range_spec in Hsq. by rewrite Hnone in Hp. }
  unfold evaluate. rewrite evaluate_counters, !Hiso. cbn.
  f_equal. rewrite Z.add_0_r, Z.sub_0_r. unfold material_balance.
  f_equal. apply map_ext_in. intros sq Hsq.
  apply list_elem_of_In, py_range_spec in Hsq.
  unfold contribution, piece_value.
  destruct (pa sq) as [[t col] |] eqn:Epiece; [| done].
  cbn [piece_type color].
  destruct t; try (by destruct col).
  - pose proof (Hnone sq col Hsq) as Hp. rewrite Epiece in Hp. cbn in Hp.
    by rewrite eqb_reflx in Hp.
  - assert (Hshield : _calculate_king_shield pa sq col = 0).
    { rewrite _calculate_king_shield_cells. apply Zsum_zero. intros cell Hcell.
      destruct (shield_cells_facts sq col Hsq) as [Hcells _].
      destruct (proj1 (Forall_forall _ _) Hcells cell Hcell) as [Hon _].
      by rewrite Hnone. }
    rewrite Hshield. by destruct col.
Qed.

Lemma existsb_false {A : Type} (f : A → bool) (l : list A) :
  existsb f l = false ↔ ∀ x, x ∈ l → f x = false.
Proof.
  induction l as [| a l IH]; cbn.
  - split; [intros _ x Hx; by apply elem_of_nil in Hx | done].
  - rewrite orb_false_iff, IH. split.
    + intros [Ha Hl] x Hx. apply elem_of_cons in Hx as [-> | Hx]; auto.
    + intros Hall. split; [apply Hall; by left |].
      intros x Hx. apply Hall. by right.
Qed.

(** X9.  [_is_passed_pawn] answers [True] exactly when no opposing pawn stands on
    the pawn's file or a neighbouring file of the board, on a rank ahead of
    it: above it for White, below it for Black. *)
Theorem _is_passed_pawn_iff pa (square : Z) (is_white : bool) :
  _is_passed_pawn pa square is_white = true
  ↔ ∀ rank file,
      (if is_white then square / 8 < rank < 8 else 0 ≤ rank < square / 8) →
      square mod 8 - 1 ≤ file ≤ square mod 8 + 1 →
      0 ≤ file < 8 →
      pawn_of_color (pa (rank * 8 + file)) (negb is_white) = false.
Proof.
  unfold _is_passed_pawn.
  assert (Hscan : ∀ (ranks : list Z) opp,
    existsb (fun rank =>
      existsb (fun file =>
        (0 <=? file) && (file <? 8) && pawn_of_color (pa (rank * 8 + file)) opp)
        [square mod 8 - 1; square mod 8; square mod 8 + 1]) ranks = false
    ↔ ∀ rank file, rank ∈ ranks →
        square mod 8 - 1 ≤ file ≤ square mod 8 + 1 → 0 ≤ file < 8 →
        pawn_of_color (pa (rank * 8 + file)) opp = false).
  { intros ranks opp. rewrite existsb_false. split.
    - intros Hall rank file Hrank Hnear Hfile.
      pose proof (proj1 (existsb_false _ _) (Hall rank Hrank) file) as Hcell.
      cbn beta in Hcell. rewrite file_guard, bool_decide_eq_true_2 in Hcell by done.
      apply Hcell.
      assert (file = square mod 8 - 1 ∨ file = square mod 8
              ∨ file = square mod 8 + 1) as [-> | [-> | ->]] by lia;
        repeat constructor.
    - intros Hall rank Hrank. apply existsb_false. intros file Hfile.
      rewrite file_guard. case_bool_decide as Hguard; [| done]. cbn.
      apply Hall; [done | | done].
      repeat (apply elem_of_cons in Hfile as [-> | Hfile]); try lia.
      by apply elem_of_nil in Hfile. }
  destruct is_white; rewrite negb_true_iff, Hscan; cbn [negb];
    split; intros Hall rank file Hrank; apply Hall.
  - apply py_range_spec. lia.
  - apply py_range_spec in Hrank. lia.
  - apply py_range_down_spec. lia.
  - apply py_range_down_spec in Hrank. lia.
Qed.

(** X10.  [_is_isolated_pawn] answers [True] exactly when no pawn of the same
    colour stands anywhere on a neighbouring file of the board. *)
Theorem _is_isolated_pawn_iff pa (square : Z) (is_white : bool) :
  _is_isolated_pawn pa square is_white = true
  ↔ ∀ rank file,
      0 ≤ rank < 8 →
      file = square mod 8 - 1 ∨ file = square mod 8 + 1 →
      0 ≤ file < 8 →
      pawn_of_color (pa (rank * 8 + file)) is_white = false.
Proof.
  unfold _is_isolated_pawn. rewrite negb_true_iff, existsb_false. split.
  - intros Hall rank file Hrank Hnear Hfile.
    assert (Hin : file ∈ [square mod 8 - 1; square mod 8 + 1])
      by (destruct Hnear as [-> | ->]; repeat constructor).
    pose proof (Hall file Hin) as Hcell. cbn beta in Hcell.
    rewrite file_guard, bool_decide_eq_true_2 in Hcell by done.
    cbn in Hcell. apply (proj1 (existsb_false _ _) Hcell).
    by apply py_range_spec.
  - intros Hall file Hfile. rewrite file_guard.
    case_bool_decide as Hguard; [| done]. cbn.
    apply existsb_false. intros rank Hrank. apply py_range_spec in Hrank.
    apply Hall; [done | | done].
    repeat (apply elem_of_cons in Hfile as [-> | Hfile]); try tauto.
    by apply elem_of_nil in Hfile.
Qed.

End EvaluatorFacts.

(* ===================================================================== *)
(** ** Capture ordering and quiescence *)

Section CaptureOrdering.
Context `{RulesEngine}.

Lemma mvv_lva_get_gap (t1 t2 : PieceType) :
  mvv_lva_get t2 < mvv_lva_get t1 →
  mvv_lva_get t2 + 2 ≤ mvv_lva_get t1 ∧ 1 ≤ mvv_lva_get t2 ∧ mvv_lva_get t1 ≤ 1000.
Proof. destruct t1, t2; vm_compute; intuition congruence. Qed.

Lemma mvv_lva_get_range (t : PieceType) : 1 ≤ mvv_lva_get t ≤ 1000.
Proof. destruct t; vm_compute; intuition congruence. Qed.

(** X11.  Most valuable victim first: of two captures whose pieces are on the
    board, the one of the more valuable victim scores strictly higher,
    whatever the attackers and whether or not either move promotes, unless
    the history count of the other origin square is ahead by more than 200. *)
Theorem mvv_victim_dominates (self : ChessBot) (m1 m2 : Move)
    (victim1 attacker1 victim2 attacker2 : Piece) (count1 count2 : Z) :
  let pos := position (board self) in
  is_capture pos m1 = true → is_capture pos m2 = true →
  piece_at pos (to_square m1) = Some victim1 →
  piece_at pos (from_square m1) = Some attacker1 →
  piece_at pos (to_square m2) = Some victim2 →
  piece_at pos (from_square m2) = Some attacker2 →
  history_count self (from_square m1) = Some count1 →
  history_count self (from_square m2) = Some count2 →
  count2 ≤ count1 + 200 →
  mvv_lva_get (piece_type victim2) < mvv_lva_get (piece_type victim1) →
  ∃ score1 score2,
    _score_move_mvv_lva self m1 = Some score1
    ∧ _score_move_mvv_lva self m2 = Some score2
    ∧ score2 < score1.
Proof.
  intros pos Hc1 Hc2 Hv1 Ha1 Hv2 Ha2 Hh1 Hh2 Hcount Hvalue.
  unfold _score_move_mvv_lva. fold pos.
  rewrite Hc1, Hc2, Hv1, Ha1, Hv2, Ha2.
  unfold history_count in Hh1, Hh2.
  destruct (py_getitem (history_table self) (from_square m1 / 8)) as [row1 |];
    [| discriminate].
  destruct (py_getitem (history_table self) (from_square m2 / 8)) as [row2 |];
    [| discriminate].
  cbn in Hh1, Hh2 |- *. rewrite Hh1, Hh2. cbn.
  eexists _, _. split; [reflexivity |]. split; [reflexivity |].
  destruct (mvv_lva_get_gap _ _ Hvalue) as (Hgap & _ & _).
  pose proof (mvv_lva_get_range (piece_type attacker1)).
  pose proof (mvv_lva_get_range (piece_type attacker2)).
  repeat case_bool_decide; lia.
Qed.

End CaptureOrdering.

Section QuiescenceWindow.
Context `{RulesEngine}.

Lemma quiescence_loop_upper_bound (child : Score → Score → M Score)
    (beta : Score) (moves : list Move) :
  (∀ a b, preserves_board (child a b)) →
  ∀ alpha s r s',
    score_le alpha beta = true →
    quiescence_loop child moves alpha beta s = Done r s' →
    score_le r beta = true.
Proof.
  intros Hchild. induction moves as [| move rest IH]; intros alpha s r s' Hab Heq.
  - by injection Heq as <- <-.
  - rewrite quiescence_loop_step in Heq by done.
    destruct (tactical _ _); [| by eauto].
    destruct (child _ _ _) as [r1 s1 | |]; try discriminate.
    cbn zeta in Heq. unfold score_ge in Heq.
    destruct (score_le beta (score_neg r1)) eqn:Ecut.
    + injection Heq as <- <-. apply score_le_refl.
    + eapply IH; [| exact Heq].
      destruct (score_gt _ _); [by apply score_le_total | done].
Qed.

(** X13.  Fail-hard: called with [alpha <= beta], [quiescence] returns a value of
    the closed window [[alpha, beta]]. *)
Theorem quiescence_within_window (fuel : nat) (alpha beta : Score)
    (s : ChessBot) (r : Score) (s' : ChessBot) :
  score_le alpha beta = true →
  quiescence fuel alpha beta s = Done r s' →
  score_le alpha r = true ∧ score_le r beta = true.
Proof.
  intros Hab. destruct fuel as [| fuel]; [discriminate |].
  cbn [quiescence]. rewrite mbind_M. unfold evaluate_board, lift at 1.
  destruct (evaluate _) as [stand_pat |]; [| discriminate].
  unfold score_ge.
  destruct (score_le beta (Fin stand_pat)) eqn:Ecut.
  { intros [= <- <-]. split; [done | apply score_le_refl]. }
  apply score_le_total in Ecut.
  rewrite mbind_M. unfold lift.
  destruct (quiescence_moves s) as [moves |]; [| discriminate].
  intros Heq.
  assert (Hpre : ∀ a b, preserves_board (quiescence fuel a b))
    by (intros; apply quiescence_preserves).
  set (alpha' := if score_lt alpha (Fin stand_pat) then Fin stand_pat else alpha) in *.
  assert (Hlow : score_le alpha alpha' = true).
  { subst alpha'. unfold score_lt.
    destruct (score_le (Fin stand_pat) alpha) eqn:E; cbn [negb].
    - apply score_le_refl.
    - by apply score_le_total. }
  assert (Hup : score_le alpha' beta = true).
  { subst alpha'. by destruct (score_lt _ _). }
  split.
  - destruct (quiescence_loop_lower_bound _ _ _ Hpre _ _ _ _ Heq) as [-> | Hle];
      [done |]. by eapply score_le_trans.
  - by eapply quiescence_loop_upper_bound.
Qed.

(** X14.  [quiescence] writes nothing: it stores no table entry, records no killer
    move, bumps no history count and reads no clock, and the moves it applies
    are undone. When it returns, the bot is the one it started from. *)
Theorem quiescence_leaves_bot_unchanged (fuel : nat) (alpha beta : Score)
    (s : ChessBot) (r : Score) (s' : ChessBot) :
  quiescence fuel alpha beta s = Done r s' → s' = s.
Proof. apply quiescence_state. Qed.

End QuiescenceWindow.

(* ===================================================================== *)
(** ** Search: what it keeps *)

Section SearchInvariants.
Context `{RulesEngine}.
Variable clock : nat → Z.

(** Any reflexive and transitive relation between bots that the elementary
    steps respect is respected by the whole search. *)
Section Generic.
Variable R : ChessBot → ChessBot → Prop.
Hypothesis R_refl : ∀ s, R s s.
Hypothesis R_trans : ∀ s1 s2 s3, R s1 s2 → R s2 s3 → R s1 s3.
Hypothesis R_board : ∀ b s, R s (set_board b s).
Hypothesis R_store : ∀ key depth e flag bm, respects R (tt_store key depth e flag bm).
Hypothesis R_killer : ∀ depth move, respects R (record_killer depth move).
Hypothesis R_history : ∀ move, respects R (bump_history move).

Lemma respects_ret {A : Type} (a : A) : respects R (ret a).
Proof. intros s r s' [= <- <-]. apply R_refl. Qed.

Lemma respects_bind {A B : Type} (m : M A) (f : A → M B) :
  respects R m → (∀ a, respects R (f a)) → respects R (m ≫= f).
Proof.
  intros Hm Hf s r s' Heq. rewrite mbind_M in Heq.
  destruct (m s) as [a s1 | |] eqn:Em; try discriminate.
  eapply R_trans; [exact (Hm _ _ _ Em) | exact (Hf _ _ _ _ Heq)].
Qed.

Lemma respects_lift {A : Type} (f : ChessBot → option A) : respects R (lift f).
Proof.
  intros s r s' Heq. unfold lift in Heq.
  destruct (f s); [| discriminate]. injection Heq as <- <-. apply R_refl.
Qed.

Lemma respects_get : respects R get.
Proof. intros s r s' [= <- <-]. apply R_refl. Qed.

Lemma respects_push (move : Move) : respects R (board_push move).
Proof. intros s r s' [= <- <-]. apply R_board. Qed.

Lemma respects_pop : respects R board_pop.
Proof.
  intros s r s' Heq. unfold board_pop in Heq.
  destruct (pop (board s)); [| discriminate]. injection Heq as <- <-.
  apply R_board.
Qed.

Lemma respects_quiescence (fuel : nat) (alpha beta : Score) :
  respects R (quiescence fuel alpha beta).
Proof.
  intros s r s' Heq. apply quiescence_state in Heq as ->. apply R_refl.
Qed.

Ltac respects_seq :=
  repeat first
    [ apply respects_ret
    | apply respects_get
    | apply respects_push
    | apply respects_pop
    | apply R_store
    | apply R_killer
    | apply R_history
    | apply respects_lift
    | apply respects_quiescence
    | assumption
    | apply respects_bind; [| intros ?] ].

Lemma respects_search_loop
    (child : Score → Score → M (option Move * option Score))
    (key : string) (depth : Z) (start_time time_limit : option Z) (beta : Score)
    (moves : list Move) :
  respects R (deadline_passed clock start_time time_limit) →
  (∀ a b, respects R (child a b)) →
  ∀ alpha best_move best_eval,
    respects R
      (search_loop clock child key depth start_time time_limit moves alpha beta
         best_move best_eval).
Proof.
  intros Hdeadline Hchild.
  induction moves as [| move rest IH]; intros alpha best_move best_eval.
  - apply respects_ret.
  - cbn [search_loop]. apply respects_bind; [done |].
    intros passed. destruct passed; [apply respects_ret |].
    apply respects_bind; [apply respects_push |]. intros _.
    apply respects_bind; [apply Hchild |]. intros [m1 e1]. cbn [snd].
    destruct e1 as [e |]; [| respects_seq].
    apply respects_bind; [apply respects_pop |]. intros _. cbn zeta.
    destruct (score_ge _ _); [respects_seq | apply IH].
Qed.

Lemma respects_search (start_time time_limit : option Z) :
  respects R (deadline_passed clock start_time time_limit) →
  ∀ fuel depth alpha beta is_maximizing,
    respects R
      (search clock fuel depth alpha beta is_maximizing start_time time_limit).
Proof.
  intros Hdeadline.
  induction fuel as [| fuel IH]; intros depth alpha beta is_maximizing.
  - intros s r s' Heq. discriminate.
  - cbn [search]. apply respects_bind; [done |].
    intros passed. destruct passed; [apply respects_ret |].
    apply respects_bind; [apply respects_get |]. intros self.
    destruct (TranspositionTable.lookup _ _ _ _ _) as [[[tt_move tt_eval] tt_flag] |];
      [apply respects_ret |].
    destruct (_ || _).
    + destruct (depth =? 0); unfold evaluate_board; respects_seq.
    + apply respects_bind; [apply respects_lift |]. intros moves.
      apply respects_bind.
      { apply respects_search_loop; [done |]. intros a b. apply IH. }
      intros [result | best_move best_eval]; [apply respects_ret |].
      destruct (bool_decide _); unfold evaluate_board; respects_seq.
Qed.

Lemma respects_iterative_deepening_loop (fuel iterations : nat)
    (max_depth time_limit_seconds start_time : Z) :
  respects R (time_time clock) →
  ∀ depth best_move,
    respects R
      (iterative_deepening_loop clock fuel iterations max_depth
         time_limit_seconds start_time depth best_move).
Proof.
  intros Htime. induction iterations as [| n IH]; intros depth best_move.
  - intros s r s' Heq. discriminate.
  - cbn [iterative_deepening_loop].
    destruct (depth <=? max_depth); [| apply respects_ret].
    apply respects_bind; [done |]. intros now.
    destruct (_ >=? _); [apply respects_ret |].
    apply respects_bind; [apply respects_get |]. intros self.
    apply respects_bind; [| intros r; apply IH].
    apply respects_search. unfold deadline_passed.
    apply respects_bind; [done |]. intros t. apply respects_ret.
Qed.

Lemma respects_iterative_deepening (fuel : nat) (max_depth time_limit_seconds : Z) :
  respects R (time_time clock) →
  respects R (iterative_deepening clock fuel max_depth time_limit_seconds).
Proof.
  intros Htime. unfold iterative_deepening.
  apply respects_bind; [done |]. intros start_time.
  by apply respects_iterative_deepening_loop.
Qed.

End Generic.

End SearchInvariants.

Section PythonLists.
Context {A : Type}.

Lemma py_index_lt (n : nat) (i : Z) (k : nat) : py_index n i = Some k → (k < n)%nat.
Proof.
  unfold py_index.
  destruct (Z.leb_spec 0 i), (Z.ltb_spec i (Z.of_nat n)),
    (Z.ltb_spec i 0), (Z.leb_spec 0 (Z.of_nat n + i)); cbn;
    intros [= <-]; lia.
Qed.

Lemma py_getitem_index (l : list A) (i : Z) :
  py_getitem l i = k ← py_index (length l) i; l !! k.
Proof.
  unfold py_getitem, py_index.
  by destruct (_ && _); [| destruct (_ && _)].
Qed.

Lemma py_setitem_index (l : list A) (i : Z) (x : A) :
  py_setitem l i x = (fun k => <[k := x]> l) <$> py_index (length l) i.
Proof.
  unfold py_setitem, py_index.
  by destruct (_ && _); [| destruct (_ && _)].
Qed.

Lemma py_setitem_length (l l' : list A) (i : Z) (x : A) :
  py_setitem l i x = Some l' → length l' = length l.
Proof.
  rewrite py_setitem_index. destruct (py_index _ _); [| discriminate].
  intros [= <-]. apply length_insert.
Qed.

Lemma py_setitem_Forall (P : A → Prop) (l l' : list A) (i : Z) (x : A) :
  py_setitem l i x = Some l' → Forall P l → P x → Forall P l'.
Proof.
  rewrite py_setitem_index. destruct (py_index _ _); [| discriminate].
  intros [= <-]. apply Forall_insert.
Qed.

Lemma py_getitem_elem_of (l : list A) (i : Z) (x : A) :
  py_getitem l i = Some x → x ∈ l.
Proof.
  rewrite py_getitem_index. destruct (py_index _ _) as [k |]; [| discriminate].
  cbn. apply list_elem_of_lookup_2.
Qed.

End PythonLists.

Section SearchKeeps.
Context `{RulesEngine}.
Variable clock : nat → Z.

Lemma same_shape_refl (s : ChessBot) : same_shape s s.
Proof. unfold same_shape. split; [done | by split]. Qed.

Lemma same_shape_trans (s1 s2 s3 : ChessBot) :
  same_shape s1 s2 → same_shape s2 s3 → same_shape s1 s3.
Proof.
  intros (Hh1 & Hk1 & Hc1) (Hh2 & Hk2 & Hc2). unfold same_shape.
  split; [| split].
  - by intros ?; apply Hh2, Hh1.
  - by rewrite Hk2.
  - by rewrite Hc2.
Qed.

Lemma same_shape_record_killer (depth : Z) (move : Move) :
  respects same_shape (record_killer depth move).
Proof.
  intros s r s' Heq. unfold record_killer in Heq.
  destruct (_ <? _); [| injection Heq as <- <-; apply same_shape_refl].
  destruct (py_setitem _ _ _) as [k |] eqn:Eset; [| discriminate].
  injection Heq as <- <-. unfold same_shape. split; [done |]. split; [| done].
  cbn. by eapply py_setitem_length.
Qed.

Lemma same_shape_bump_history (move : Move) :
  respects same_shape (bump_history move).
Proof.
  intros s r s' Heq. unfold bump_history in Heq.
  destruct (py_getitem (history_table s) _) as [row |] eqn:Erow; [| discriminate].
  cbn in Heq.
  destruct (py_getitem row _) as [count |]; [| discriminate]. cbn in Heq.
  destruct (py_setitem row _ _) as [row' |] eqn:Erow'; [| discriminate].
  cbn in Heq.
  destruct (py_setitem (history_table s) _ _) as [h' |] eqn:Eh'; [| discriminate].
  injection Heq as <- <-. unfold same_shape. split; [| by split].
  cbn. intros [Hlen Hrows]. split.
  - by rewrite (py_setitem_length _ _ _ _ Eh').
  - eapply py_setitem_Forall; [exact Eh' | exact Hrows |].
    rewrite (py_setitem_length _ _ _ _ Erow').
    apply (proj1 (Forall_forall _ _) Hrows). by eapply py_getitem_elem_of.
Qed.

(** X22.  Whenever [search] or [iterative_deepening] returns, the history table is
    still the 8 x 8 grid (if it was one), the killer array has kept its
    length, and the capacity of the transposition table is unchanged. *)
Theorem search_keeps_shape (fuel : nat) (depth : Z) (alpha beta : Score)
    (is_maximizing : bool) (start_time time_limit : option Z)
    (max_depth time_limit_seconds : Z) (s : ChessBot) :
  (∀ r s',
     search clock fuel depth alpha beta is_maximizing start_time time_limit s
     = Done r s' → same_shape s s')
  ∧ (∀ r s',
       iterative_deepening clock fuel max_depth time_limit_seconds s = Done r s' →
       same_shape s s').
Proof.
  assert (Htime : respects same_shape (time_time clock)).
  { intros s0 r s' [= <- <-]. unfold same_shape. split; [done | by split]. }
  assert (Hstore : ∀ key d e flag bm, respects same_shape (tt_store key d e flag bm)).
  { intros key d e flag bm s0 r s' [= <- <-]. unfold same_shape.
    split; [done | by split]. }
  assert (Hboard : ∀ b s0, same_shape s0 (set_board b s0))
    by (intros; unfold same_shape; split; [done | by split]).
  split; intros r s'.
  - apply (respects_search clock same_shape same_shape_refl same_shape_trans Hboard
             Hstore same_shape_record_killer same_shape_bump_history).
    unfold deadline_passed. destruct start_time, time_limit;
      try (intros s0 r0 s0' [= <- <-]; apply same_shape_refl).
    apply (respects_bind same_shape same_shape_trans); [done |].
    intros t s0 r0 s0' [= <- <-]. apply same_shape_refl.
  - by apply (respects_iterative_deepening clock same_shape same_shape_refl
                same_shape_trans Hboard Hstore same_shape_record_killer
                same_shape_bump_history).
Qed.

(** X21.  A search without a deadline ([start_time] or [time_limit] is [None])
    never reads the clock. *)
Theorem search_without_deadline_reads_no_clock (fuel : nat) (depth : Z)
    (alpha beta : Score) (is_maximizing : bool)
    (start_time time_limit : option Z) (s : ChessBot)
    (r : option Move * option Score) (s' : ChessBot) :
  start_time = None ∨ time_limit = None →
  search clock fuel depth alpha beta is_maximizing start_time time_limit s
  = Done r s' →
  clock_reads s' = clock_reads s.
Proof.
  intros Hnone.
  apply (respects_search clock (fun s s' => clock_reads s' = clock_reads s)).
  - done.
  - intros s1 s2 s3 H12 H23. by rewrite H23.
  - done.
  - by intros key d e flag bm s0 r0 s0' [= <- <-].
  - intros d move s0 r0 s0' Heq. unfold record_killer in Heq.
    destruct (_ <? _); [| by injection Heq as <- <-].
    destruct (py_setitem _ _ _); [| discriminate]. by injection Heq as <- <-.
  - intros move s0 r0 s0' Heq. unfold bump_history in Heq.
    destruct (_ ≫= _); [| discriminate]. by injection Heq as <- <-.
  - unfold deadline_passed.
    destruct Hnone as [-> | ->]; [| destruct start_time];
      by intros s0 r0 s0' [= <- <-].
Qed.

Lemma history_grows_refl (s : ChessBot) : history_grows s s.
Proof. intros square count Hc. exists count. split; [done | lia]. Qed.

Lemma history_grows_trans (s1 s2 s3 : ChessBot) :
  history_grows s1 s2 → history_grows s2 s3 → history_grows s1 s3.
Proof.
  intros H12 H23 square count Hc.
  destruct (H12 _ _ Hc) as (c2 & Hc2 & Hle2).
  destruct (H23 _ _ Hc2) as (c3 & Hc3 & Hle3).
  exists c3. split; [done | lia].
Qed.

Lemma history_grows_same (s s' : ChessBot) :
  history_table s' = history_table s → history_grows s s'.
Proof.
  intros Hh square count Hc. exists count. split; [| lia].
  unfold history_count in *. by rewrite Hh.
Qed.

Lemma history_grows_bump (move : Move) : respects history_grows (bump_history move).
Proof.
  intros s r s' Heq square old Hold. unfold bump_history in Heq.
  unfold history_count in *.
  rewrite py_getitem_index in Heq.
  destruct (py_index (length (history_table s)) (from_square move / 8))
    as [b |] eqn:Eb; [| discriminate].
  cbn in Heq. destruct (history_table s !! b) as [row |] eqn:Erow; [| discriminate].
  cbn in Heq. rewrite py_getitem_index in Heq.
  destruct (py_index (length row) (from_square move mod 8)) as [d |] eqn:Ed;
    [| discriminate].
  cbn in Heq. destruct (row !! d) as [v |] eqn:Ev; [| discriminate].
  cbn in Heq. rewrite !py_setitem_index, Ed in Heq. cbn in Heq.
  rewrite py_setitem_index, Eb in Heq. cbn in Heq. injection Heq as <- <-. cbn [history_table set_history_table].
  rewrite py_getitem_index in Hold |- *. rewrite length_insert.
  destruct (py_index (length (history_table s)) (square / 8)) as [a |] eqn:Ea;
    [| discriminate].
  cbn in Hold |- *.
  destruct (decide (a = b)) as [-> | Hab].
  - rewrite Erow in Hold. cbn in Hold.
    rewrite list_lookup_insert_eq by (by eapply py_index_lt). cbn.
    rewrite py_getitem_index in Hold |- *. rewrite length_insert.
    destruct (py_index (length row) (square mod 8)) as [e |] eqn:Ee; [| discriminate].
    cbn in Hold |- *.
    destruct (decide (e = d)) as [-> | Hed].
    + rewrite list_lookup_insert_eq by (by eapply py_index_lt).
      rewrite Ev in Hold. injection Hold as <-. exists (v + 1). split; [done | lia].
    + rewrite list_lookup_insert_ne by done. exists old. split; [done | lia].
  - rewrite list_lookup_insert_ne by done. exists old. split; [done | lia].
Qed.

(** X23.  History counts only grow: across [search] and across
    [iterative_deepening], every count of the history table that could be
    read before can be read afterwards and is at least what it was. *)
Theorem search_history_grows (fuel : nat) (depth : Z) (alpha beta : Score)
    (is_maximizing : bool) (start_time time_limit : option Z)
    (max_depth time_limit_seconds : Z) (s : ChessBot) :
  (∀ r s',
     search clock fuel depth alpha beta is_maximizing start_time time_limit s
     = Done r s' → history_grows s s')
  ∧ (∀ r s',
       iterative_deepening clock fuel max_depth time_limit_seconds s = Done r s' →
       history_grows s s').
Proof.
  assert (Htime : respects history_grows (time_time clock)).
  { intros s0 r s' [= <- <-]. by apply history_grows_same. }
  assert (Hstore : ∀ key d e flag bm, respects history_grows (tt_store key d e flag bm)).
  { intros key d e flag bm s0 r s' [= <- <-]. by apply history_grows_same. }
  assert (Hboard : ∀ b s0, history_grows s0 (set_board b s0))
    by (intros; by apply history_grows_same).
  assert (Hkiller : ∀ d move, respects history_grows (record_killer d move)).
  { intros d move s0 r0 s0' Heq. unfold record_killer in Heq.
    destruct (_ <? _); [| injection Heq as <- <-; apply history_grows_refl].
    destruct (py_setitem _ _ _); [| discriminate].
    injection Heq as <- <-. by apply history_grows_same. }
  split; intros r s'.
  - apply (respects_search clock history_grows history_grows_refl
             history_grows_trans Hboard Hstore Hkiller history_grows_bump).
    unfold deadline_passed. destruct start_time, time_limit;
      try (intros s0 r0 s0' [= <- <-]; apply history_grows_refl).
    apply (respects_bind history_grows history_grows_trans); [done |].
    intros t s0 r0 s0' [= <- <-]. apply history_grows_refl.
  - by apply (respects_iterative_deepening clock history_grows history_grows_refl
                history_grows_trans Hboard Hstore Hkiller history_grows_bump).
Qed.

End SearchKeeps.

(* ===================================================================== *)
(** ** Search: what a completed node leaves behind *)

Section SearchResults.
Context `{RulesEngine}.
Variable clock : nat → Z.

Lemma order_moves_perm (self : ChessBot) (moves ordered : list Move) (depth : Z) :
  order_moves self moves depth = Some ordered → ordered ≡ₚ moves.
Proof.
  unfold order_moves. intros Heq.
  destruct (mapM _ _) as [scored |] eqn:Escored; [| discriminate].
  injection Heq as <-. rewrite py_sort_perm.
  apply mapM_Some in Escored.
  induction Escored as [| m p l k Hp _ IH]; [done |].
  destruct (order_score self _ depth m); [| discriminate].
  injection Hp as <-. cbn. by rewrite IH.
Qed.

(** The deadline test changes nothing but the number of clock readings, and
    answers [True] exactly when both times are set and the limit is reached. *)
Lemma deadline_passed_returns (start_time time_limit : option Z) (s : ChessBot) :
  ∃ passed s0,
    deadline_passed clock start_time time_limit s = Done passed s0
    ∧ killer_moves s0 = killer_moves s
    ∧ history_table s0 = history_table s.
Proof.
  unfold deadline_passed. destruct start_time, time_limit;
    try rewrite mbind_M; cbn [time_time ret]; by eexists _, _.
Qed.

Lemma deadline_passed_inv (start_time time_limit : option Z) (s : ChessBot)
    (passed : bool) (s0 : ChessBot) :
  deadline_passed clock start_time time_limit s = Done passed s0 →
  board s0 = board s
  ∧ transposition_table s0 = transposition_table s
  ∧ (passed = true ↔
     ∃ t0 limit, start_time = Some t0 ∧ time_limit = Some limit
                 ∧ limit ≤ clock (clock_reads s) - t0).
Proof.
  unfold deadline_passed. destruct start_time as [t0 |], time_limit as [limit |].
  - rewrite mbind_M. cbn [time_time ret]. intros [= <- <-].
    split; [done |]. split; [done |].
    destruct (Z.geb_spec (clock (clock_reads s) - t0) limit); split.
    + intros _. exists t0, limit. repeat split. lia.
    + done.
    + done.
    + intros (? & ? & [= <-] & [= <-] & ?). lia.
  - intros [= <- <-]. repeat split; [done |]. by intros (? & ? & _ & ? & _).
  - intros [= <- <-]. repeat split; [done |]. by intros (? & ? & ? & _).
  - intros [= <- <-]. repeat split; [done |]. by intros (? & ? & ? & _).
Qed.

(** How the loop of [search] can end: a cutoff has just stored a LOWER entry
    holding what is returned; and the best move, on either exit, is the one
    the loop was entered with or one of the moves of its list. *)
Lemma search_loop_exit
    (child : Score → Score → M (option Move * option Score))
    (key : string) (depth : Z) (start_time time_limit : option Z) (beta : Score)
    (moves : list Move) :
  ∀ alpha best_move best_eval s exit s',
    search_loop clock child key depth start_time time_limit moves alpha beta
      best_move best_eval s = Done exit s' →
    match exit with
    | Returned (m, e) =>
        (m = best_move ∨ ∃ mv, mv ∈ moves ∧ m = Some mv)
        ∧ ∃ v, e = Some v
               ∧ TranspositionTable.table (transposition_table s') !! key
                 = Some (TranspositionTable.mkEntry depth v LOWER m)
    | Fell m _ => m = best_move ∨ ∃ mv, mv ∈ moves ∧ m = Some mv
    end.
Proof.
  induction moves as [| move rest IH];
    intros alpha best_move best_eval s exit s' Heq.
  - injection Heq as <- <-. by left.
  - cbn [search_loop] in Heq. rewrite mbind_M in Heq.
    destruct (deadline_passed _ _ _ s) as [passed s0 | |]; try discriminate.
    destruct passed; [injection Heq as <- <-; by left |].
    rewrite mbind_M in Heq. cbn [board_push] in Heq. rewrite mbind_M in Heq.
    destruct (child _ _ _) as [[m1 e1] s1 | |]; try discriminate.
    cbn [snd] in Heq.
    destruct e1 as [e |]; rewrite mbind_M in Heq.
    + destruct (board_pop s1) as [[] s2 | |]; try discriminate.
      cbn zeta in Heq. destruct (score_ge _ _).
      * rewrite mbind_M in Heq.
        destruct (record_killer depth move s2) as [[] s3 | |]; try discriminate.
        rewrite mbind_M in Heq. cbn [tt_store] in Heq. rewrite mbind_M in Heq.
        unfold bump_history in Heq. cbn [history_table set_transposition_table] in Heq.
        destruct (_ ≫= _) as [h' |]; [| discriminate].
        injection Heq as <- <-. split.
        -- destruct (score_gt (score_neg e) best_eval); [right | by left].
           exists move. split; [by left | done].
        -- eexists. split; [reflexivity |]. cbn.
           unfold TranspositionTable.store. cbn. apply lookup_insert_eq.
      * apply IH in Heq. destruct exit as [[m e'] | m e'].
        -- destruct Heq as [[-> | (mv & Hmv & ->)] Hentry]; (split; [| done]).
           ++ destruct (score_gt (score_neg e) best_eval); [right | by left].
              exists move. split; [by left | done].
           ++ right. exists mv. split; [by right | done].
        -- destruct Heq as [-> | (mv & Hmv & ->)].
           ++ destruct (score_gt (score_neg e) best_eval); [right | by left].
              exists move. split; [by left | done].
           ++ right. exists mv. split; [by right | done].
    + destruct (board_pop s1) as [[] s2 | |]; try discriminate.
      injection Heq as <- <-. by left.
Qed.

(** X19.  What [search] does on a miss.  If the deadline has not passed at entry and
    the table has no usable entry, then, when [search] returns, the table
    holds an entry for the position, of the depth searched and with the best
    move returned, flagged LOWER after a cutoff and EXACT otherwise; and the
    move returned, if any, is a legal move of the position. *)
Theorem search_miss_result (fuel : nat) (depth : Z) (alpha beta : Score)
    (is_maximizing : bool) (start_time time_limit : option Z) (s : ChessBot)
    (m : option Move) (e : option Score) (s' : ChessBot) :
  (∀ t0 limit, start_time = Some t0 → time_limit = Some limit →
               clock (clock_reads s) - t0 < limit) →
  TranspositionTable.lookup (transposition_table s)
    (generate_transposition_key s) depth alpha beta = None →
  search clock fuel depth alpha beta is_maximizing start_time time_limit s
  = Done (m, e) s' →
  (∃ entry,
     TranspositionTable.table (transposition_table s')
       !! generate_transposition_key s = Some entry
     ∧ TranspositionTable.e_depth entry = depth
     ∧ TranspositionTable.e_best_move entry = m
     ∧ (TranspositionTable.e_flag entry = EXACT
        ∨ TranspositionTable.e_flag entry = LOWER))
  ∧ (∀ mv, m = Some mv → mv ∈ legal_moves (position (board s))).
Proof.
  intros Hearly Hmiss. destruct fuel as [| fuel]; [discriminate |].
  cbn [search]. rewrite mbind_M.
  destruct (deadline_passed _ _ _ s) as [passed s0 | |] eqn:Ed; try discriminate.
  apply deadline_passed_inv in Ed as (Hboard & Htable & Hpassed).
  destruct passed.
  { destruct (proj1 Hpassed eq_refl) as (t0 & limit & -> & -> & Hlate).
    specialize (Hearly t0 limit eq_refl eq_refl). lia. }
  rewrite mbind_M. cbn [get].
  assert (Hkey : generate_transposition_key s0 = generate_transposition_key s)
    by (unfold generate_transposition_key; by rewrite Hboard).
  rewrite Hkey, Htable, Hmiss, Hboard.
  destruct (_ || _).
  - rewrite mbind_M.
    match goal with
    | |- match ?c with _ => _ end = _ → _ => destruct c as [v s1 | |]
    end; try discriminate.
    rewrite mbind_M. cbn [tt_store ret]. intros [= <- <- <-]. split; [| done].
    eexists. split; [apply lookup_insert_eq |]. cbn. by auto.
  - rewrite mbind_M. unfold lift at 1.
    destruct (order_moves s0 _ depth) as [moves |] eqn:Emoves; [| discriminate].
    apply order_moves_perm in Emoves.
    rewrite mbind_M.
    destruct (search_loop _ _ _ _ _ _ _ _ _ _ _ s0) as [exit s2 | |] eqn:El;
      try discriminate.
    apply search_loop_exit in El.
    destruct exit as [[m' e'] | m' e'].
    + intros [= <- <- <-]. destruct El as [Hmove (v & -> & Hentry)]. split.
      * eexists. split; [exact Hentry |]. cbn. by auto.
      * intros mv ->. destruct Hmove as [? | (mv' & Hmv' & [= <-])]; [done |].
        by rewrite <- Emoves.
    + rewrite mbind_M.
      match goal with
      | |- match ?c with _ => _ end = _ → _ => destruct c as [v s3 | |]
      end; try discriminate.
      rewrite mbind_M. cbn [tt_store ret]. intros [= <- <- <-]. split.
      * eexists. split; [apply lookup_insert_eq |]. cbn. by auto.
      * intros mv ->. destruct El as [? | (mv' & Hmv' & [= <-])]; [done |].
        by rewrite <- Emoves.
Qed.

(** X18.  A usable table entry short-circuits the search, at any depth: the stored
    move and score are returned and nothing but the count of clock readings
    changes. *)
Theorem search_hit_returns_entry (fuel : nat) (depth : Z) (alpha beta : Score)
    (is_maximizing : bool) (start_time time_limit : option Z) (s : ChessBot)
    (tt_move : option Move) (tt_eval : Score) (tt_flag : Flag) :
  (∀ t0 limit, start_time = Some t0 → time_limit = Some limit →
               clock (clock_reads s) - t0 < limit) →
  TranspositionTable.lookup (transposition_table s)
    (generate_transposition_key s) depth alpha beta
  = Some (tt_move, tt_eval, tt_flag) →
  ∃ s',
    search clock (S fuel) depth alpha beta is_maximizing start_time time_limit s
    = Done (tt_move, Some tt_eval) s'
    ∧ board s' = board s
    ∧ transposition_table s' = transposition_table s
    ∧ killer_moves s' = killer_moves s
    ∧ history_table s' = history_table s.
Proof.
  intros Hearly Hhit. cbn [search]. rewrite mbind_M.
  destruct (deadline_passed_returns start_time time_limit s)
    as (passed & s0 & Ed & Hkiller & Hhistory).
  rewrite Ed. apply deadline_passed_inv in Ed as (Hboard & Htable & Hpassed).
  destruct passed.
  { destruct (proj1 Hpassed eq_refl) as (t0 & limit & -> & -> & Hlate).
    specialize (Hearly t0 limit eq_refl eq_refl). lia. }
  rewrite mbind_M. cbn [get].
  assert (Hkey : generate_transposition_key s0 = generate_transposition_key s)
    by (unfold generate_transposition_key; by rewrite Hboard).
  rewrite Hkey, Htable, Hhit. by exists s0.
Qed.

End SearchResults.

(* ===================================================================== *)
(** ** Search: the table as a memo *)

Section SearchMemo.
Context `{RulesEngine}.
Variable clock : nat → Z.

(** In a window with [alpha < beta], the score returned on a cutoff is at
    least [beta]. *)
Lemma search_loop_cutoff_score
    (child : Score → Score → M (option Move * option Score))
    (key : string) (depth : Z) (start_time time_limit : option Z) (beta : Score)
    (moves : list Move) :
  ∀ alpha best_move best_eval s m v s',
    score_lt alpha beta = true →
    search_loop clock child key depth start_time time_limit moves alpha beta
      best_move best_eval s = Done (Returned (m, Some v)) s' →
    score_ge v beta = true.
Proof.
  induction moves as [| move rest IH];
    intros alpha best_move best_eval s m v s' Hab Heq.
  - discriminate.
  - cbn [search_loop] in Heq. rewrite mbind_M in Heq.
    destruct (deadline_passed _ _ _ s) as [passed s0 | |]; try discriminate.
    destruct passed; [discriminate |].
    rewrite mbind_M in Heq. cbn [board_push] in Heq. rewrite mbind_M in Heq.
    destruct (child _ _ _) as [[m1 e1] s1 | |]; try discriminate.
    cbn [snd] in Heq.
    destruct e1 as [e |]; rewrite mbind_M in Heq;
      (destruct (board_pop s1) as [[] s2 | |]; try discriminate).
    cbn zeta in Heq.
    destruct (score_ge (if score_gt (score_neg e) alpha then _ else _) beta) eqn:Ecut.
    + rewrite mbind_M in Heq.
      destruct (record_killer depth move s2) as [[] s3 | |]; try discriminate.
      rewrite mbind_M in Heq. cbn [tt_store] in Heq. rewrite mbind_M in Heq.
      destruct (bump_history move _) as [[] s4 | |]; try discriminate.
      injection Heq as <- <- <-.
      unfold score_ge, score_gt, score_lt in *.
      destruct (score_le (score_neg e) alpha) eqn:Ealpha; cbn [negb] in Ecut.
      * rewrite Ecut in Hab. discriminate.
      * destruct (score_le (score_neg e) best_eval) eqn:Ebest; cbn [negb];
          [by eapply score_le_trans | done].
    + eapply IH; [| exact Heq].
      unfold score_ge, score_lt in *. by rewrite Ecut.
Qed.

Lemma lookup_after_store (tt : TranspositionTable.t) (key : string) (depth : Z)
    (v : Score) (flag : Flag) (m : option Move) (alpha beta : Score) :
  flag = EXACT ∨ (flag = LOWER ∧ score_ge v beta = true) →
  TranspositionTable.table tt !! key
  = Some (TranspositionTable.mkEntry depth v flag m) →
  TranspositionTable.lookup tt key depth alpha beta = Some (m, v, flag).
Proof.
  intros Hflag Hentry. unfold TranspositionTable.lookup. rewrite Hentry.
  destruct (Z.geb_spec depth depth); [| lia].
  destruct Hflag as [-> | [-> Hge]]; cbn; [done | by rewrite Hge].
Qed.

(** X20.  The table is a memo of the search.  After a search without deadline, in
    a window with [alpha < beta], has returned a move and a score other than
    minus infinity, the same call on the resulting bot returns the same move
    and score at once, from the table, and changes nothing. *)
Theorem search_repeat_is_memoised (fuel fuel' : nat) (depth : Z)
    (alpha beta : Score) (is_maximizing is_maximizing' : bool) (s : ChessBot)
    (m : option Move) (v : Score) (s' : ChessBot) :
  score_lt alpha beta = true →
  v ≠ NegInf →
  search clock fuel depth alpha beta is_maximizing None None s
  = Done (m, Some v) s' →
  search clock (S fuel') depth alpha beta is_maximizing' None None s'
  = Done (m, Some v) s'.
Proof.
  intros Hab Hv Hfirst.
  assert (Hboard : board s' = board s) by (by eapply search_preserves).
  assert (Hkey : generate_transposition_key s' = generate_transposition_key s)
    by (unfold generate_transposition_key; by rewrite Hboard).
  assert (Hhit : TranspositionTable.lookup (transposition_table s')
                   (generate_transposition_key s) depth alpha beta
                 = Some (m, v, EXACT)
                 ∨ TranspositionTable.lookup (transposition_table s')
                     (generate_transposition_key s) depth alpha beta
                   = Some (m, v, LOWER)
                 ∨ ∃ flag, s' = s
                     ∧ TranspositionTable.lookup (transposition_table s)
                         (generate_transposition_key s) depth alpha beta
                       = Some (m, v, flag)).
  { destruct fuel as [| fuel]; [discriminate |].
    cbn [search deadline_passed] in Hfirst. rewrite mbind_M in Hfirst.
    cbn [ret] in Hfirst. rewrite mbind_M in Hfirst. cbn [get] in Hfirst.
    destruct (TranspositionTable.lookup _ _ _ _ _)
      as [[[tt_move tt_eval] tt_flag] |] eqn:Elook.
    { injection Hfirst as <- <- <-. right. right. by exists tt_flag. }
    destruct (_ || _).
    - rewrite mbind_M in Hfirst.
      match type of Hfirst with
      | match ?c with _ => _ end = _ => destruct c as [v1 s1 | |]
      end; try discriminate.
      rewrite mbind_M in Hfirst. cbn [tt_store ret] in Hfirst.
      injection Hfirst as <- <- <-. left.
      apply lookup_after_store; [by left |]. cbn. apply lookup_insert_eq.
    - rewrite mbind_M in Hfirst. unfold lift at 1 in Hfirst.
      destruct (order_moves s _ depth) as [moves |]; [| discriminate].
      rewrite mbind_M in Hfirst.
      destruct (search_loop _ _ _ _ _ _ _ _ _ _ _ s) as [exit s2 | |] eqn:El;
        try discriminate.
      destruct exit as [[m' e'] | m' e'].
      + injection Hfirst as -> -> <-.
        pose proof (search_loop_cutoff_score _ _ _ _ _ _ _ _ _ _ _ _ _ _ Hab El)
          as Hcut.
        apply search_loop_exit in El as [_ (v' & [= <-] & Hentry)].
        right. left. apply lookup_after_store; [right; by split | done].
      + destruct (bool_decide (e' ≠ NegInf)) eqn:Ene.
        * rewrite mbind_M in Hfirst. cbn [ret] in Hfirst.
          rewrite mbind_M in Hfirst. cbn [tt_store ret] in Hfirst.
          injection Hfirst as <- <- <-. left.
          apply lookup_after_store; [by left |]. cbn. apply lookup_insert_eq.
        * apply bool_decide_eq_false in Ene.
          rewrite !mbind_M in Hfirst.
          destruct (evaluate_board s2) as [z s3 | |]; try discriminate.
          cbn [ret] in Hfirst. rewrite mbind_M in Hfirst.
          cbn [tt_store ret] in Hfirst. injection Hfirst as <- <- <-.
          exfalso. apply Ene. exact Hv. }
  cbn [search deadline_passed]. rewrite mbind_M. cbn [ret]. rewrite mbind_M.
  cbn [get].
  destruct Hhit as [Hhit | [Hhit | (flag & -> & Hhit)]];
    rewrite ?Hkey, Hhit; reflexivity.
Qed.

End SearchMemo.

(* ===================================================================== *)
(** ** Iterative deepening and the bot's moves *)

Section Driver.
Context `{RulesEngine}.
Variable clock : nat → Z.

Lemma iterative_deepening_loop_preserves (fuel iterations : nat)
    (max_depth time_limit_seconds start_time : Z) :
  ∀ depth best_move,
    preserves_board
      (iterative_deepening_loop clock fuel iterations max_depth
         time_limit_seconds start_time depth best_move).
Proof.
  induction iterations as [| n IH]; intros depth best_move.
  - intros s r s' Heq. discriminate.
  - cbn [iterative_deepening_loop].
    destruct (depth <=? max_depth); [| apply preserves_ret].
    apply preserves_bind; [apply preserves_time_time |]. intros now.
    destruct (_ >=? _); [apply preserves_ret |].
    apply preserves_bind; [apply preserves_get |]. intros self.
    apply preserves_bind; [apply search_preserves | intros r; apply IH].
Qed.

Lemma iterative_deepening_preserves (fuel : nat) (max_depth time_limit_seconds : Z) :
  preserves_board (iterative_deepening clock fuel max_depth time_limit_seconds).
Proof.
  unfold iterative_deepening.
  apply preserves_bind; [apply preserves_time_time |]. intros start_time.
  apply iterative_deepening_loop_preserves.
Qed.

(** X24.  Whatever depths it searched and however each search ended,
    [iterative_deepening] returns with the board, and its stack of saved
    positions, as it found them. *)
Theorem iterative_deepening_restores_board (fuel : nat)
    (max_depth time_limit_seconds : Z) (s : ChessBot) (r : option Move)
    (s' : ChessBot) :
  iterative_deepening clock fuel max_depth time_limit_seconds s = Done r s' →
  board s' = board s.
Proof. apply iterative_deepening_preserves. Qed.

(** X25.  With [max_depth] below 1 the loop body never runs: one clock reading,
    no search, no move. *)
Theorem iterative_deepening_no_depth (fuel : nat)
    (max_depth time_limit_seconds : Z) (s : ChessBot) :
  max_depth < 1 →
  iterative_deepening clock fuel max_depth time_limit_seconds s
  = Done None
      {| board := board s; history_table := history_table s;
         killer_moves := killer_moves s;
         transposition_table := transposition_table s;
         clock_reads := S (clock_reads s) |}.
Proof.
  intros Hdepth. unfold iterative_deepening. rewrite mbind_M.
  cbn [time_time iterative_deepening_loop].
  destruct (Z.leb_spec 1 max_depth); [lia | reflexivity].
Qed.

(** X26.  [make_bot_move] plays exactly the move it returns: when it returns a
    move, the board is the board it started from with that one move pushed
    and the turn has changed hands; when it returns none, the board and the
    turn are as before. *)
Theorem make_bot_move_plays_its_move (fuel : nat)
    (max_depth time_limit_seconds : Z) (turn : string) (s : ChessBot)
    (r : option Move) (turn' : string) (s' : ChessBot) :
  make_bot_move clock fuel max_depth time_limit_seconds turn s
  = Done (r, turn') s' →
  match r with
  | Some move =>
      board s' = push (board s) move
      ∧ pop (board s') = Some (board s)
      ∧ turn' = switch_player turn
  | None => board s' = board s ∧ turn' = turn
  end.
Proof.
  unfold make_bot_move. rewrite mbind_M.
  destruct (iterative_deepening _ _ _ _ s) as [best s1 | |] eqn:Eid;
    try discriminate.
  apply iterative_deepening_preserves in Eid.
  destruct best as [move |].
  - destruct (move_truthy move).
    + rewrite mbind_M. cbn [board_push ret]. intros [= <- <- <-].
      cbn [board set_board]. rewrite Eid. by rewrite pop_push.
    + intros [= <- <- <-]. done.
  - intros [= <- <- <-]. done.
Qed.

(** X27.  [make_move] refuses a move that is not legal in the position: it answers
    [False] and changes neither the bot nor the turn.  A legal move is pushed
    on the board, from where [pop] takes it back, and the turn changes
    hands; between ["white"] and ["black"] two changes cancel. *)
Theorem bot_make_move_spec (from_uci : string → option Move) (move_uci : string)
    (turn : string) (s : ChessBot) (move : Move) :
  from_uci move_uci = Some move →
  (move ∉ legal_moves (position (board s)) →
   bot_make_move from_uci move_uci turn s = Done (false, turn) s)
  ∧ (move ∈ legal_moves (position (board s)) →
     bot_make_move from_uci move_uci turn s
     = Done (true, switch_player turn) (set_board (push (board s) move) s)
     ∧ pop (push (board s) move) = Some (board s)
     ∧ (turn = "white" ∨ turn = "black" →
        switch_player (switch_player turn) = turn)).
Proof.
  intros Hparse. unfold bot_make_move. rewrite mbind_M. unfold lift.
  rewrite Hparse, mbind_M. cbn [get]. split; intros Hlegal.
  - by rewrite bool_decide_eq_false_2.
  - rewrite bool_decide_eq_true_2 by done. split; [done |].
    split; [apply pop_push |]. by intros [-> | ->].
Qed.

End Driver.

(* ===================================================================== *)
(** ** Move ordering: the table move first *)

Section TableMoveFirst.
Context `{RulesEngine}.

Lemma order_moves_by_spec (self : ChessBot) (moves : list Move) (depth : Z) :
  history_wf (history_table self) →
  Forall (fun m => 0 ≤ from_square m < 64) moves →
  0 ≤ depth →
  order_moves self moves depth
  = Some (map snd (py_sort true
                     (map (fun m => (spec_move_score self depth m, m)) moves))).
Proof.
  intros Hh Hsq Hd. unfold order_moves.
  rewrite (mapM_total _ (fun m => (spec_move_score self depth m, m))); [done |].
  eapply Forall_impl; [exact Hsq |].
  intros m Hm. cbn beta. by rewrite order_score_spec.
Qed.

Lemma table_move_score (self : ChessBot) (depth : Z)
    (entry : TranspositionTable.Entry) (best : Move) :
  Forall (Forall (fun count => 0 ≤ count)) (history_table self) →
  TranspositionTable.table (transposition_table self)
    !! generate_transposition_key self = Some entry →
  TranspositionTable.e_best_move entry = Some best →
  1000000 ≤ spec_move_score self depth best.
Proof.
  intros Hcounts Hentry Hbest. unfold spec_move_score.
  unfold generate_transposition_key in Hentry. rewrite Hentry. cbn.
  rewrite Hbest, bool_decide_eq_true_2 by done.
  assert (Hhist : 0 ≤ default 0
            (history_table self !! Z.to_nat (from_square best / 8)
             ≫= (fun row => row !! Z.to_nat (from_square best mod 8)))).
  { destruct (history_table self !! _) as [row |] eqn:Erow; [| done]. cbn.
    destruct (row !! _) as [count |] eqn:Ecount; [| done]. cbn.
    apply list_elem_of_lookup_2 in Erow, Ecount.
    pose proof (proj1 (Forall_forall _ _) Hcounts row Erow) as Hrow.
    exact (proj1 (Forall_forall _ _) Hrow count Ecount). }
  assert (Hcapture : 0 ≤
    (if is_capture (position (board self)) best then
       match piece_at (position (board self)) (to_square best),
             piece_at (position (board self)) (from_square best) with
       | Some victim, Some attacker =>
           1000 * mvv_lva_get (piece_type victim) - mvv_lva_get (piece_type attacker)
       | _, _ => 1000
       end
     else 0)).
  { destruct (is_capture _ _); [| done].
    destruct (piece_at _ (to_square best)) as [victim |]; [| done].
    destruct (piece_at _ (from_square best)) as [attacker |]; [| done].
    pose proof (mvv_lva_get_range (piece_type victim)).
    pose proof (mvv_lva_get_range (piece_type attacker)). lia. }
  repeat case_bool_decide; lia.
Qed.

(** X12.  The table move is tried first.  If the table entry of the position
    records a best move that is among the moves, the history counts are not
    negative, and no other move reaches a score of 1,000,000 (none does
    unless it captures a king or its history count is huge), then
    [order_moves] puts the recorded move first. *)
Theorem order_moves_table_move_first (self : ChessBot) (moves : list Move)
    (depth : Z) (entry : TranspositionTable.Entry) (best : Move) :
  history_wf (history_table self) →
  Forall (Forall (fun count => 0 ≤ count)) (history_table self) →
  Forall (fun m => 0 ≤ from_square m < 64) moves →
  0 ≤ depth →
  TranspositionTable.table (transposition_table self)
    !! generate_transposition_key self = Some entry →
  TranspositionTable.e_best_move entry = Some best →
  best ∈ moves →
  (∀ m, m ∈ moves → m ≠ best → spec_move_score self depth m < 1000000) →
  ∃ rest, order_moves self moves depth = Some (best :: rest).
Proof.
  intros Hh Hcounts Hsq Hd Hentry Hbest Hin Hothers.
  pose proof (table_move_score self depth entry best Hcounts Hentry Hbest) as Hhigh.
  rewrite order_moves_by_spec by done.
  pose proof (py_sort_by_key_perm (spec_move_score self depth) true moves) as Hperm.
  pose proof (py_sort_by_key_sorted (spec_move_score self depth) true moves) as Hsorted.
  destruct (map snd _) as [| first rest]; [| exists rest; do 2 f_equal].
  - rewrite <- Hperm in Hin. by apply elem_of_nil in Hin.
  - destruct (decide (first = best)) as [| Hne]; [done |]. exfalso.
    rewrite <- Hperm in Hin. apply elem_of_cons in Hin as [-> | Hin]; [done |].
    apply StronglySorted_inv in Hsorted as [_ Hfirst].
    pose proof (proj1 (Forall_forall _ _) Hfirst best Hin) as Hle.
    unfold in_order in Hle. cbn in Hle.
    assert (Hfirst_in : first ∈ moves) by (rewrite <- Hperm; by left).
    specialize (Hothers first Hfirst_in Hne). lia.
Qed.

End TableMoveFirst.

(* ===================================================================== *)
(** ** Three facts proved on the way, stated on their own *)

Section OnTheWay.
Context `{RulesEngine}.
Variable clock : nat → Z.

(** X15.  With the assumptions of C10 on captures and promotions, from a position
    of a family that the legal moves do not leave, on which the evaluator
    does not raise and whose moves start on the board, and with an 8 x 8
    history table, [quiescence] returns a score, and leaves the bot as it
    was, once the recursion depth exceeds pieces plus pawns. *)
Theorem quiescence_returns_a_score (legal_position : Position → Prop) :
  (∀ pos m, m ∈ legal_moves pos → is_capture pos m = true →
     (piece_count (piece_at (make_move pos m)) < piece_count (piece_at pos))%nat
     ∧ (pawn_count (piece_at (make_move pos m)) ≤ pawn_count (piece_at pos))%nat) →
  (∀ pos m, m ∈ legal_moves pos → promotion m ≠ None →
     (pawn_count (piece_at (make_move pos m)) < pawn_count (piece_at pos))%nat
     ∧ (piece_count (piece_at (make_move pos m)) ≤ piece_count (piece_at pos))%nat) →
  (∀ pos, legal_position pos → is_Some (evaluate (piece_at pos))) →
  (∀ pos m, legal_position pos → m ∈ legal_moves pos →
     0 ≤ from_square m < 64 ∧ legal_position (make_move pos m)) →
  ∀ fuel alpha beta s,
    history_wf (history_table s) →
    legal_position (position (board s)) →
    (piece_count (piece_at (position (board s)))
     + pawn_count (piece_at (position (board s))) < fuel)%nat →
    ∃ r, quiescence fuel alpha beta s = Done r s.
Proof. apply quiescence_returns. Qed.

(** X17.  The second component of what [search] returns is always a score, never
    [None]: the branch of the loop that tests [eval_score is None] is never
    taken. *)
Theorem search_score_is_a_number (fuel : nat) (depth : Z) (alpha beta : Score)
    (is_maximizing : bool) (start_time time_limit : option Z)
    (s : ChessBot) (result : option Move * option Score) (s' : ChessBot) :
  search clock fuel depth alpha beta is_maximizing start_time time_limit s
  = Done result s' →
  ∃ score, result.2 = Some score.
Proof.
  intros Heq. apply search_score_never_None in Heq.
  destruct result.2 as [score |]; [by exists score | done].
Qed.


End OnTheWay.

(* ===================================================================== *)
(** ** Further worked examples *)

Module FurtherExamples.
Import Scenario MoreScenarios.

Lemma evaluate_returns_witness : ∃ score, evaluate (piece_on root) = Some score.
Proof. apply (evaluate_returns (piece_on root)); vm_compute; lia. Defined.

Lemma king_shield_bounds_witness :
  0 ≤ _calculate_king_shield (piece_on root) 0 true ≤ 30.
Proof. apply (king_shield_bounds (piece_on root) 0 true). lia. Defined.

Lemma evaluate_without_pawns_witness :
  evaluate (piece_on queen_position)
  = Some (material_balance (piece_on queen_position)).
Proof.
  apply (evaluate_without_pawns (piece_on queen_position)).
  intros sq c _. unfold pawn_of_color, piece_on, queen_position.
  cbn [pieces find fst].
  repeat (destruct (_ =? sq); [reflexivity |]).
  reflexivity.
Defined.

Lemma mvv_victim_dominates_witness :
  ∃ score1 score2,
    _score_move_mvv_lva (bot_at queen_position) Qxd8 = Some score1
    ∧ _score_move_mvv_lva (bot_at queen_position) Qxh5 = Some score2
    ∧ score2 < score1.
Proof.
  apply (mvv_victim_dominates (bot_at queen_position) Qxd8 Qxh5
           (black ROOK) (white QUEEN) (black KNIGHT) (white QUEEN) 0 0);
    try (vm_compute; reflexivity).
  lia.
Defined.

Lemma quiescence_within_window_witness :
  ∃ r s', quiescence 3 (Fin (-100)) (Fin 100) (bot_at root) = Done r s'
          ∧ score_le (Fin (-100)) r = true ∧ score_le r (Fin 100) = true.
Proof.
  assert (∃ r s', quiescence 3 (Fin (-100)) (Fin 100) (bot_at root) = Done r s')
    as (r & s' & Eq) by (eexists _, _; vm_compute; reflexivity).
  exists r, s'. split; [exact Eq |].
  apply (quiescence_within_window 3 (Fin (-100)) (Fin 100) (bot_at root) r s');
    [reflexivity | exact Eq].
Defined.

Lemma quiescence_leaves_bot_unchanged_witness :
  ∃ r s', quiescence 3 NegInf PosInf (bot_at after_Ka2) = Done r s'
          ∧ s' = bot_at after_Ka2.
Proof.
  assert (∃ r s', quiescence 3 NegInf PosInf (bot_at after_Ka2) = Done r s')
    as (r & s' & Eq) by (eexists _, _; vm_compute; reflexivity).
  exists r, s'. split; [exact Eq |].
  exact (quiescence_leaves_bot_unchanged 3 NegInf PosInf _ r s' Eq).
Defined.

Lemma quiescence_returns_a_score_witness :
  ∃ r, quiescence 9 NegInf PosInf (bot_at root) = Done r (bot_at root).
Proof.
  apply (quiescence_returns_a_score
           (fun pos : Position => is_Some (evaluate (piece_at pos)))).
  - intros pos m Hm Hcap. cbn [legal_moves engine] in Hm. unfold moves_of in Hm.
    repeat case_bool_decide; subst;
      repeat (apply elem_of_cons in Hm as [-> | Hm]);
      try (by apply elem_of_nil in Hm);
      try (vm_compute in Hcap; discriminate);
      split; vm_compute; lia.
  - intros pos m Hm Hpro. cbn [legal_moves engine] in Hm. unfold moves_of in Hm.
    repeat case_bool_decide; subst;
      repeat (apply elem_of_cons in Hm as [-> | Hm]);
      try (by apply elem_of_nil in Hm);
      exfalso; apply Hpro; reflexivity.
  - intros pos Hpos. exact Hpos.
  - intros pos m _ Hm. cbn [legal_moves engine make_move] in *.
    unfold moves_of in Hm.
    repeat case_bool_decide; subst;
      repeat (apply elem_of_cons in Hm as [-> | Hm]);
      try (by apply elem_of_nil in Hm);
      (split; [simpl; lia | vm_compute; eexists; reflexivity]).
  - split; [reflexivity |]. repeat constructor.
  - vm_compute. eexists. reflexivity.
  - vm_compute. lia.
Defined.

Lemma search_keeps_shape_witness :
  ∃ r s', search (fun _ => 0) 5 1 NegInf PosInf true None None (bot_at root)
          = Done r s'
          ∧ same_shape (bot_at root) s'.
Proof.
  assert (∃ r s', search (fun _ => 0) 5 1 NegInf PosInf true None None (bot_at root)
                  = Done r s')
    as (r & s' & Es) by (eexists _, _; vm_compute; reflexivity).
  exists r, s'. split; [exact Es |].
  exact (proj1 (search_keeps_shape (fun _ => 0) 5 1 NegInf PosInf true None None
                  1 1 (bot_at root)) r s' Es).
Defined.

Lemma search_without_deadline_reads_no_clock_witness :
  ∃ r s', search (fun _ => 0) 5 1 NegInf PosInf true None None (bot_at root)
          = Done r s'
          ∧ clock_reads s' = clock_reads (bot_at root).
Proof.
  assert (∃ r s', search (fun _ => 0) 5 1 NegInf PosInf true None None (bot_at root)
                  = Done r s')
    as (r & s' & Es) by (eexists _, _; vm_compute; reflexivity).
  exists r, s'. split; [exact Es |].
  apply (search_without_deadline_reads_no_clock (fun _ => 0) 5 1 NegInf PosInf
           true None None (bot_at root) r s'); [by left | exact Es].
Defined.

Lemma search_history_grows_witness :
  ∃ r s', search (fun _ => 0) 5 1 (Fin 0) (Fin 1) true None None (bot_at root)
          = Done r s'
          ∧ history_grows (bot_at root) s'.
Proof.
  assert (∃ r s', search (fun _ => 0) 5 1 (Fin 0) (Fin 1) true None None
                    (bot_at root) = Done r s')
    as (r & s' & Es) by (eexists _, _; vm_compute; reflexivity).
  exists r, s'. split; [exact Es |].
  exact (proj1 (search_history_grows (fun _ => 0) 5 1 (Fin 0) (Fin 1) true
                  None None 1 1 (bot_at root)) r s' Es).
Defined.

Lemma search_miss_result_witness :
  ∃ m e s',
    search (fun _ => 0) 5 1 NegInf PosInf true None None (bot_at root)
    = Done (m, e) s'
    ∧ (∃ entry,
         TranspositionTable.table (transposition_table s')
           !! generate_transposition_key (bot_at root) = Some entry
         ∧ TranspositionTable.e_depth entry = 1
         ∧ TranspositionTable.e_best_move entry = m
         ∧ (TranspositionTable.e_flag entry = EXACT
            ∨ TranspositionTable.e_flag entry = LOWER))
    ∧ (∀ mv, m = Some mv → mv ∈ legal_moves (position (board (bot_at root)))).
Proof.
  assert (∃ m e s', search (fun _ => 0) 5 1 NegInf PosInf true None None
                      (bot_at root) = Done (m, e) s')
    as (m & e & s' & Es) by (eexists _, _, _; vm_compute; reflexivity).
  exists m, e, s'. split; [exact Es |].
  apply (search_miss_result (fun _ => 0) 5 1 NegInf PosInf true None None
           (bot_at root) m e s'); [discriminate | vm_compute; reflexivity | exact Es].
Defined.

Lemma search_hit_returns_entry_witness :
  ∃ s',
    search (fun _ => 0) 1 1 NegInf PosInf true None None bot_with_entry
    = Done (Some gxh6, Some (Fin 65)) s'
    ∧ board s' = board bot_with_entry
    ∧ transposition_table s' = transposition_table bot_with_entry
    ∧ killer_moves s' = killer_moves bot_with_entry
    ∧ history_table s' = history_table bot_with_entry.
Proof.
  apply (search_hit_returns_entry (fun _ => 0) 0 1 NegInf PosInf true None None
           bot_with_entry (Some gxh6) (Fin 65) EXACT).
  - discriminate.
  - vm_compute. reflexivity.
Defined.

Lemma search_repeat_is_memoised_witness :
  ∃ s',
    search (fun _ => 0) 5 1 NegInf PosInf true None None (bot_at root)
    = Done (Some gxh6, Some (Fin 65)) s'
    ∧ search (fun _ => 0) 1 1 NegInf PosInf true None None s'
      = Done (Some gxh6, Some (Fin 65)) s'.
Proof.
  assert (∃ s', search (fun _ => 0) 5 1 NegInf PosInf true None None (bot_at root)
                = Done (Some gxh6, Some (Fin 65)) s')
    as (s' & Es) by (eexists; vm_compute; reflexivity).
  exists s'. split; [exact Es |].
  apply (search_repeat_is_memoised (fun _ => 0) 5 0 1 NegInf PosInf true true
           (bot_at root) (Some gxh6) (Fin 65) s');
    [reflexivity | discriminate | exact Es].
Defined.

Lemma search_score_is_a_number_witness :
  ∃ r s',
    search (fun n => if (n <? 2)%nat then 0 else 5) 5 1 NegInf PosInf true
      (Some 0) (Some 5) (bot_at root) = Done r s'
    ∧ ∃ score, r.2 = Some score.
Proof.
  assert (∃ r s', search (fun n => if (n <? 2)%nat then 0 else 5) 5 1 NegInf
                    PosInf true (Some 0) (Some 5) (bot_at root) = Done r s')
    as (r & s' & Es) by (eexists _, _; vm_compute; reflexivity).
  exists r, s'. split; [exact Es |].
  exact (search_score_is_a_number _ 5 1 NegInf PosInf true (Some 0) (Some 5)
           (bot_at root) r s' Es).
Defined.


Lemma iterative_deepening_restores_board_witness :
  ∃ r s', iterative_deepening (fun _ => 0) 5 1 1 (bot_at root) = Done r s'
          ∧ board s' = board (bot_at root).
Proof.
  assert (∃ r s', iterative_deepening (fun _ => 0) 5 1 1 (bot_at root) = Done r s')
    as (r & s' & Eid) by (eexists _, _; vm_compute; reflexivity).
  exists r, s'. split; [exact Eid |].
  exact (iterative_deepening_restores_board (fun _ => 0) 5 1 1 (bot_at root)
           r s' Eid).
Defined.

Lemma iterative_deepening_no_depth_witness :
  iterative_deepening (fun _ => 0) 5 0 5 (bot_at root)
  = Done None
      {| board := board (bot_at root);
         history_table := history_table (bot_at root);
         killer_moves := killer_moves (bot_at root);
         transposition_table := transposition_table (bot_at root);
         clock_reads := 1 |}.
Proof.
  apply (iterative_deepening_no_depth (fun _ => 0) 5 0 5 (bot_at root)). lia.
Defined.

Lemma make_bot_move_plays_its_move_witness :
  ∃ turn' s',
    make_bot_move (fun _ => 0) 5 1 1 "white" (bot_at root)
    = Done (Some gxh6, turn') s'
    ∧ board s' = push (board (bot_at root)) gxh6
    ∧ pop (board s') = Some (board (bot_at root))
    ∧ turn' = switch_player "white".
Proof.
  assert (∃ turn' s', make_bot_move (fun _ => 0) 5 1 1 "white" (bot_at root)
                      = Done (Some gxh6, turn') s')
    as (turn' & s' & Eb) by (eexists _, _; vm_compute; reflexivity).
  exists turn', s'. split; [exact Eb |].
  exact (make_bot_move_plays_its_move (fun _ => 0) 5 1 1 "white" (bot_at root)
           (Some gxh6) turn' s' Eb).
Defined.

Lemma bot_make_move_spec_witness :
  bot_make_move parse_uci "a1b1" "white" (bot_at root)
  = Done (false, "white") (bot_at root)
  ∧ bot_make_move parse_uci "g5h6" "white" (bot_at root)
    = Done (true, switch_player "white")
        (set_board (push (board (bot_at root)) gxh6) (bot_at root)).
Proof.
  split.
  - apply (bot_make_move_spec parse_uci "a1b1" "white" (bot_at root) (mv 0 1));
      [reflexivity |].
    vm_compute. intros Hin.
    repeat (apply elem_of_cons in Hin as [Hin | Hin]; [discriminate |]).
    by apply elem_of_nil in Hin.
  - apply (bot_make_move_spec parse_uci "g5h6" "white" (bot_at root) gxh6);
      [reflexivity |].
    right. left.
Defined.

Lemma order_moves_table_move_first_witness :
  ∃ rest, order_moves bot_with_entry [Ka2; gxh6] 1 = Some (gxh6 :: rest).
Proof.
  apply (order_moves_table_move_first bot_with_entry [Ka2; gxh6] 1
           (TranspositionTable.mkEntry 1 (Fin 65) EXACT (Some gxh6)) gxh6).
  - change (history_table bot_with_entry) with (history_table (bot_at root)).
    split; [reflexivity |]. repeat constructor.
  - change (history_table bot_with_entry) with (history_table (bot_at root)).
    simpl. repeat (constructor; try lia).
  - repeat constructor; simpl; lia.
  - lia.
  - vm_compute. reflexivity.
  - reflexivity.
  - right. left.
  - intros m Hm Hne. apply elem_of_cons in Hm as [-> | Hm].
    + vm_compute. reflexivity.
    + apply elem_of_cons in Hm as [-> | Hm]; [done |].
      by apply elem_of_nil in Hm.
Defined.

End FurtherExamples.
